(** * Annif YAKE backend: label index and score combination

    A shallow embedding of [annif/backend/yake.py].

    - Python [str] values are [string]s; a character is an [ascii] code
      point (the Latin-1 range of Unicode).
    - A Python [dict] is an association list in insertion order with
      unique keys, a [set] a duplicate-free list.
    - Scores are Python floats, and a division whose divisor is zero
      raises [ZeroDivisionError] as it does in Python. The score
      functions are given three times: in exact rational arithmetic
      ([Q]), for what the formulas are; in module [Binary64], on IEEE
      binary64 numbers, for what the code returns at given inputs; and in
      module [Rounded], where every operation rounds its exact result,
      for what holds of the code at every input.
    - Exceptions are values of [exn], carried by the [result] monad.
    - The word normaliser of the project's analyzer is external; it is a
      section variable. *)

From Stdlib Require Import Bool Arith ZArith QArith Qround Qpower Lia Lqa.
From Stdlib Require Import Ascii String List Floats.
From Stdlib Require Import Permutation Sorted.
Import ListNotations.

Local Close Scope Q_scope.
Local Open Scope string_scope.
Local Open Scope list_scope.

(** ** Exceptions *)

Inductive exn : Type :=
| ConfigurationException (message : string)
| KeyError (key : string)
| ValueError
| AttributeError
| ZeroDivisionError.

Inductive result (A : Type) : Type :=
| Ok (value : A)
| Raise (e : exn).

Arguments Ok {A} value.
Arguments Raise {A} e.

Definition bind {A B : Type} (r : result A) (k : A -> result B) : result B :=
  match r with
  | Ok a => k a
  | Raise e => Raise e
  end.

Notation "x <- r ;; k" := (bind r (fun x => k))
  (at level 61, r at next level, right associativity).
Notation "' p <- r ;; k" := (bind r (fun x => let p := x in k))
  (at level 61, p pattern, r at next level, right associativity).

(** ** Python strings *)

Module PyStr.

Definition code (c : ascii) : nat := nat_of_ascii c.

(** [str.isspace] on the code points below 256. *)
Definition isspace (c : ascii) : bool :=
  let n := code c in
  (((9 <=? n) && (n <=? 13)) || ((28 <=? n) && (n <=? 32))
   || (n =? 133) || (n =? 160))%nat.

Definition is_char (d c : ascii) : bool := Ascii.eqb c d.

Definition TAB : ascii := ascii_of_nat 9.
Definition LF : ascii := ascii_of_nat 10.
Definition CR : ascii := ascii_of_nat 13.

Definition is_empty (s : string) : bool :=
  match s with
  | EmptyString => true
  | String _ _ => false
  end.

(** [fields p s] cuts [s] at every character satisfying [p]; with
    [p = is_char sep] it is [s.split(sep)] for a one-character [sep]. *)
Fixpoint fields (p : ascii -> bool) (s : string) : list string :=
  match s with
  | EmptyString => [EmptyString]
  | String c s' =>
      if p c then EmptyString :: fields p s'
      else match fields p s' with
           | f :: fs => String c f :: fs
           | [] => [String c EmptyString]
           end
  end.

(** [s.split()]: the non-empty pieces between runs of whitespace. *)
Definition split (s : string) : list string :=
  filter (fun w => negb (is_empty w)) (fields isspace s).

(** [sep.join(ws)]. *)
Definition join (sep : string) (ws : list string) : string :=
  String.concat sep ws.

Fixpoint lstrip (s : string) : string :=
  match s with
  | EmptyString => EmptyString
  | String c s' => if isspace c then lstrip s' else s
  end.

Fixpoint rstrip (s : string) : string :=
  match s with
  | EmptyString => EmptyString
  | String c s' =>
      match rstrip s' with
      | EmptyString => if isspace c then EmptyString else String c EmptyString
      | r => String c r
      end
  end.

(** [s.strip()]. *)
Definition strip (s : string) : string := rstrip (lstrip s).

(** [str.lower] on the code points below 256: A-Z and the Latin-1 capitals
    (0xC0-0xDE without the multiplication sign 0xD7) move up by 32. *)
Definition lower_char (c : ascii) : ascii :=
  let n := code c in
  if (((65 <=? n) && (n <=? 90))
      || ((192 <=? n) && (n <=? 222) && negb (n =? 215)))%nat
  then ascii_of_nat (n + 32) else c.

Fixpoint lower (s : string) : string :=
  match s with
  | EmptyString => EmptyString
  | String c s' => String (lower_char c) (lower s')
  end.

(** [sorted(ws)] for a list of strings: stable insertion by code-point
    order. *)
Fixpoint insert_sorted (w : string) (ws : list string) : list string :=
  match ws with
  | [] => [w]
  | v :: vs => if String.ltb w v then w :: v :: vs else v :: insert_sorted w vs
  end.

Fixpoint sorted (ws : list string) : list string :=
  match ws with
  | [] => []
  | w :: ws' => insert_sorted w (sorted ws')
  end.

(** *** [re.sub(r' \(.*\)', '', s)]

    [greedy_close s] is the length of the longest prefix of [s] matched by
    [.*\)]: the dot does not cross a line feed, the star is greedy. *)
Fixpoint greedy_close (s : string) : option nat :=
  match s with
  | EmptyString => None
  | String c s' =>
      if is_char LF c then None
      else match greedy_close s' with
           | Some n => Some (S n)
           | None => if is_char ")" c then Some 1 else None
           end
  end.

(** Length of the match of the whole pattern anchored at the head. *)
Definition match_here (s : string) : option nat :=
  match s with
  | String " " (String "(" s') =>
      match greedy_close s' with
      | Some n => Some (2 + n)
      | None => None
      end
  | _ => None
  end.

(** Left-to-right scan: at a position where the pattern matches, the match
    is dropped and the scan resumes behind it. [skip] counts the characters
    of the current match still to drop. *)
Fixpoint sub_scan (skip : nat) (s : string) : string :=
  match s with
  | EmptyString => EmptyString
  | String c s' =>
      match skip with
      | S k => sub_scan k s'
      | O =>
          match match_here s with
          | Some n => sub_scan (n - 1) s'
          | None => String c (sub_scan 0 s')
          end
      end
  end.

Definition re_sub_parens (s : string) : string := sub_scan 0 s.

(** *** Text files

    Iterating over a file opened in text mode yields the lines with their
    terminator; universal newlines turn CR LF and a lone CR into LF. *)
Fixpoint readlines (s : string) : list string :=
  match s with
  | EmptyString => []
  | String c s' =>
      if is_char LF c then String LF EmptyString :: readlines s'
      else if is_char CR c then
        String LF EmptyString ::
          match s' with
          | String c' s'' => if is_char LF c' then readlines s'' else readlines s'
          | EmptyString => []
          end
      else match readlines s' with
           | l :: ls => String c l :: ls
           | [] => [String c EmptyString]
           end
  end.

End PyStr.

Import PyStr.

(** ** Python dictionaries and sets *)

Section Dict.
Context {V : Type}.

Definition dict : Type := list (string * V).

(** [d.get(k)] *)
Fixpoint dict_get (d : dict) (k : string) : option V :=
  match d with
  | [] => None
  | (k', v) :: d' => if String.eqb k' k then Some v else dict_get d' k
  end.

(** [d[k] = v]: an existing key keeps its place, a new one goes last. *)
Fixpoint dict_set (d : dict) (k : string) (v : V) : dict :=
  match d with
  | [] => [(k, v)]
  | (k', v') :: d' =>
      if String.eqb k' k then (k', v) :: d' else (k', v') :: dict_set d' k v
  end.

(** [d.pop(k, None)], the popped value dropped. *)
Fixpoint dict_pop (d : dict) (k : string) : dict :=
  match d with
  | [] => []
  | (k', v') :: d' =>
      if String.eqb k' k then dict_pop d' k else (k', v') :: dict_pop d' k
  end.

Definition keys (d : dict) : list string := map fst d.
End Dict.

Arguments dict V : clear implicits.

Definition set_mem (x : string) (s : list string) : bool :=
  existsb (String.eqb x) s.

(** [s.add(x)] *)
Definition set_add (s : list string) (x : string) : list string :=
  if set_mem x s then s else s ++ [x].

(** ** Scores *)

(** Float division [a / b]. *)
Definition truediv (a b : Q) : result Q :=
  if Qeq_bool b 0 then Raise ZeroDivisionError else Ok (a / b)%Q.

Definition _transform_score (score : Q) : result Q :=
  if Qlt_le_dec score 0 then Ok 1%Q
  else truediv 1 (score + 1)%Q.

Definition _conflate_scores (score1 score2 : Q) : result Q :=
  truediv (score1 * score2)%Q
          (score1 * score2 + (1 - score1) * (1 - score2))%Q.

Fixpoint combine_loop (suggestions : list (string * Q))
    (combined_suggestions : dict Q) : result (dict Q) :=
  match suggestions with
  | [] => Ok combined_suggestions
  | (uri, score) :: rest =>
      match dict_get combined_suggestions uri with
      | None => combine_loop rest (dict_set combined_suggestions uri score)
      | Some old_score =>
          s <- _conflate_scores score old_score ;;
          combine_loop rest (dict_set combined_suggestions uri s)
      end
  end.

Definition _combine_suggestions (suggestions : list (string * Q))
    : result (list (string * Q)) :=
  combine_loop suggestions [].

(** ** The vocabulary graph *)

Inductive node : Type :=
| URIRef (uri : string)
| Literal (lexical : string) (lang : option string) (datatype : option string).

Record triple : Type := { subject : string; predicate : string; object : node }.

Definition Graph : Type := list triple.

Definition RDF_type : string :=
  "http://www.w3.org/1999/02/22-rdf-syntax-ns#type".
Definition OWL_deprecated : string :=
  "http://www.w3.org/2002/07/owl#deprecated".
Definition XSD_boolean : string :=
  "http://www.w3.org/2001/XMLSchema#boolean".
Definition SKOS_Concept : string :=
  "http://www.w3.org/2004/02/skos/core#Concept".
Definition SKOS_prefLabel : string :=
  "http://www.w3.org/2004/02/skos/core#prefLabel".
Definition SKOS_altLabel : string :=
  "http://www.w3.org/2004/02/skos/core#altLabel".
Definition SKOS_hiddenLabel : string :=
  "http://www.w3.org/2004/02/skos/core#hiddenLabel".

(** [rdflib.Literal(True)] *)
Definition Literal_True : node := Literal "true" None (Some XSD_boolean).

Definition option_eqb (a b : option string) : bool :=
  match a, b with
  | Some x, Some y => String.eqb x y
  | None, None => true
  | _, _ => false
  end.

Definition node_eqb (a b : node) : bool :=
  match a, b with
  | URIRef x, URIRef y => String.eqb x y
  | Literal x l d, Literal y l' d' =>
      String.eqb x y && option_eqb l l' && option_eqb d d'
  | _, _ => false
  end.

(** [str(n)] *)
Definition str (n : node) : string :=
  match n with
  | URIRef uri => uri
  | Literal lexical _ _ => lexical
  end.

(** [(s, p, o) in graph] *)
Definition graph_contains (g : Graph) (s p : string) (o : node) : bool :=
  existsb (fun t => String.eqb (subject t) s && String.eqb (predicate t) p
                    && node_eqb (object t) o) g.

(** [graph.subjects(p, o)] *)
Definition subjects (g : Graph) (p : string) (o : node) : list string :=
  map subject
    (filter (fun t => String.eqb (predicate t) p && node_eqb (object t) o) g).

(** [graph.objects(s, p)] *)
Definition objects (g : Graph) (s p : string) : list node :=
  map object
    (filter (fun t => String.eqb (subject t) s && String.eqb (predicate t) p) g).

(** ** The backend *)

Record params : Type := {
  language : string;
  label_types_param : option string;   (* params['label_types'], when set *)
  default_label_types : list string;
  remove_parentheses : bool
}.

Record SubjectSuggestion : Type := {
  uri : string;
  label : option string;
  notation : option string;
  score : Q
}.

Definition mapping : dict string :=
  [("pref", SKOS_prefLabel); ("alt", SKOS_altLabel);
   ("hidden", SKOS_hiddenLabel)].

(** [[mapping[f(lt)] for lt in entries]] *)
Fixpoint lookup_kinds (f : string -> string) (entries : list string)
    : result (list string) :=
  match entries with
  | [] => Ok []
  | lt :: rest =>
      match dict_get mapping (f lt) with
      | None => Raise (KeyError (f lt))
      | Some kind => kinds <- lookup_kinds f rest ;; Ok (kind :: kinds)
      end
  end.

(** The text of a [KeyError] whose key is free of quotes and escapes. *)
Definition key_repr (key : string) : string := "'" ++ key ++ "'".

Definition label_types (p : params) : result (list string) :=
  match label_types_param p with
  | Some lt_param =>
      let lt_entries := fields (is_char ",") lt_param in
      match lookup_kinds strip lt_entries with
      | Raise (KeyError err) =>
          Raise (ConfigurationException ("invalid label type " ++ key_repr err))
      | r => r
      end
  | None => lookup_kinds (fun lt => lt) (default_label_types p)
  end.

(** Labels whose language is the configured one; a label that is not a
    literal has no [language] attribute. *)
Fixpoint keep_language (lang : string) (labels : list node)
    : result (list node) :=
  match labels with
  | [] => Ok []
  | l :: rest =>
      match l with
      | URIRef _ => Raise AttributeError
      | Literal _ llang _ =>
          kept <- keep_language lang rest ;;
          Ok (if option_eqb llang (Some lang) then l :: kept else kept)
      end
  end.

Fixpoint _get_concept_labels (g : Graph) (p : params) (concept : string)
    (label_types : list string) : result (list node) :=
  match label_types with
  | [] => Ok []
  | label_type :: rest =>
      here <- keep_language (language p) (objects g concept label_type) ;;
      more <- _get_concept_labels g p concept rest ;;
      Ok (here ++ more)
  end.

(** [suggestions[:limit]] *)
Definition slice_to {A : Type} (l : list A) (limit : Z) : list A :=
  if (0 <=? limit)%Z then firstn (Z.to_nat limit) l
  else firstn (length l - Z.to_nat (- limit)) l.

(** [[SubjectSuggestion(...) for uri, score in l if score > 0.0]] *)
Fixpoint subject_suggestions (l : list (string * Q)) : list SubjectSuggestion :=
  match l with
  | [] => []
  | (u, s) :: rest =>
      if Qlt_le_dec 0 s
      then {| uri := u; label := None; notation := None; score := s |}
           :: subject_suggestions rest
      else subject_suggestions rest
  end.

(** The tail of [_suggest], from the combined pairs on. *)
Definition assemble (suggestions : list (string * Q)) (limit : Z)
    : list SubjectSuggestion :=
  subject_suggestions (slice_to suggestions limit).

(** [_save_index]: the text written to the index file. *)
Fixpoint _save_index (index : dict (list string)) : string :=
  match index with
  | [] => EmptyString
  | (label, uris) :: rest =>
      (label ++ String TAB (join " " uris)) ++ String LF (_save_index rest)
  end.

(** [label, uris = line.strip().split('\t')] *)
Definition parse_line (line : string) : result (string * list string) :=
  match fields (is_char TAB) (strip line) with
  | [label; uris] => Ok (label, split uris)
  | _ => Raise ValueError
  end.

Fixpoint load_lines (lines : list string) (index : dict (list string))
    : result (dict (list string)) :=
  match lines with
  | [] => Ok index
  | line :: rest =>
      ' (label, uris) <- parse_line line ;;
      load_lines rest (dict_set index label uris)
  end.

(** [_load_index], from the text of the index file. *)
Definition _load_index (file : string) : result (dict (list string)) :=
  load_lines (readlines file) [].

Section Backend.

(** [project.analyzer.normalize_word] *)
Variable normalize_word : string -> string.

Definition _lemmatize_phrase (phrase : string) : string :=
  join " " (map (fun word => lower (normalize_word word)) (split phrase)).

Definition _sort_phrase (phrase : string) : string :=
  join " " (sorted (split phrase)).

Definition _normalize_label (p : params) (label : node) : string :=
  let label := str label in
  let label := if remove_parentheses p then re_sub_parens label else label in
  _sort_phrase (_lemmatize_phrase label).

(** [for label in labels: index[normalize(label)].add(uri)] *)
Fixpoint add_labels (p : params) (index : dict (list string)) (uri : string)
    (labels : list node) : dict (list string) :=
  match labels with
  | [] => index
  | l :: rest =>
      let label := _normalize_label p l in
      let uris := match dict_get index label with
                  | Some s => s
                  | None => []
                  end in
      add_labels p (dict_set index label (set_add uris uri)) uri rest
  end.

Fixpoint index_concepts (g : Graph) (p : params) (concepts : list string)
    (index : dict (list string)) : result (dict (list string)) :=
  match concepts with
  | [] => Ok index
  | concept :: rest =>
      if graph_contains g concept OWL_deprecated Literal_True
      then index_concepts g p rest index
      else
        lts <- label_types p ;;
        labels <- _get_concept_labels g p concept lts ;;
        index_concepts g p rest (add_labels p index concept labels)
  end.

Definition _create_index (g : Graph) (p : params)
    : result (dict (list string)) :=
  index <- index_concepts g p (subjects g RDF_type (URIRef SKOS_Concept)) [] ;;
  Ok (dict_pop index "").

(** The index key under which a keyphrase is looked up. *)
Definition keyphrase_key (keyphrase : string) : string :=
  _sort_phrase (_lemmatize_phrase keyphrase).

Definition _keyphrase2uris (index : dict (list string)) (keyphrase : string)
    : list string :=
  match dict_get index (keyphrase_key keyphrase) with
  | Some uris => uris
  | None => []
  end.

(** [for uri in uris: suggestions.append((uri, transform(score)))] *)
Fixpoint scored (uris : list string) (raw : Q) : result (list (string * Q)) :=
  match uris with
  | [] => Ok []
  | u :: rest =>
      s <- _transform_score raw ;;
      more <- scored rest raw ;;
      Ok ((u, s) :: more)
  end.

(** The loop of [_keyphrases2suggestions]: the pairs appended to
    [suggestions] and to [not_matched]. *)
Fixpoint match_keyphrases (index : dict (list string))
    (keyphrases : list (string * Q))
    : result (list (string * Q) * list (string * Q)) :=
  match keyphrases with
  | [] => Ok ([], [])
  | (kp, raw) :: rest =>
      let uris := _keyphrase2uris index kp in
      here <- scored uris raw ;;
      missed <- match uris with
                | [] => s <- _transform_score raw ;; Ok [(kp, s)]
                | _ => Ok []
                end ;;
      ' (suggestions, not_matched) <- match_keyphrases index rest ;;
      Ok (here ++ suggestions, missed ++ not_matched)
  end.

Definition _keyphrases2suggestions (index : dict (list string))
    (keyphrases : list (string * Q)) : result (list (string * Q)) :=
  ' (suggestions, not_matched) <- match_keyphrases index keyphrases ;;
  _combine_suggestions suggestions.

End Backend.

(** ** The score functions on binary64 numbers *)

Module Binary64.

Definition truediv (a b : float) : result float :=
  if PrimFloat.eqb b 0 then Raise ZeroDivisionError else Ok (a / b)%float.

Definition _transform_score (score : float) : result float :=
  if PrimFloat.ltb score 0 then Ok 1%float
  else truediv 1 (score + 1)%float.

Definition _conflate_scores (score1 score2 : float) : result float :=
  truediv (score1 * score2)%float
          (score1 * score2 + (1 - score1) * (1 - score2))%float.

Fixpoint combine_loop (suggestions : list (string * float))
    (combined_suggestions : dict float) : result (dict float) :=
  match suggestions with
  | [] => Ok combined_suggestions
  | (uri, score) :: rest =>
      match dict_get combined_suggestions uri with
      | None => combine_loop rest (dict_set combined_suggestions uri score)
      | Some old_score =>
          s <- _conflate_scores score old_score ;;
          combine_loop rest (dict_set combined_suggestions uri s)
      end
  end.

Definition _combine_suggestions (suggestions : list (string * float))
    : result (list (string * float)) :=
  combine_loop suggestions [].

Fixpoint scored (uris : list string) (raw : float)
    : result (list (string * float)) :=
  match uris with
  | [] => Ok []
  | u :: rest =>
      s <- _transform_score raw ;;
      more <- scored rest raw ;;
      Ok ((u, s) :: more)
  end.

Fixpoint match_keyphrases (normalize_word : string -> string)
    (index : dict (list string)) (keyphrases : list (string * float))
    : result (list (string * float) * list (string * float)) :=
  match keyphrases with
  | [] => Ok ([], [])
  | (kp, raw) :: rest =>
      let uris := _keyphrase2uris normalize_word index kp in
      here <- scored uris raw ;;
      missed <- match uris with
                | [] => s <- _transform_score raw ;; Ok [(kp, s)]
                | _ => Ok []
                end ;;
      ' (suggestions, not_matched) <- match_keyphrases normalize_word index rest ;;
      Ok (here ++ suggestions, missed ++ not_matched)
  end.

Definition _keyphrases2suggestions (normalize_word : string -> string)
    (index : dict (list string)) (keyphrases : list (string * float))
    : result (list (string * float)) :=
  ' (suggestions, not_matched) <-
      match_keyphrases normalize_word index keyphrases ;;
  _combine_suggestions suggestions.

End Binary64.

(** ** The score functions with rounding

    A binary64 operation returns the exact result rounded to a
    representable number. Here a float is the rational it stands for and
    [rnd] is the rounding. The lemmas take the properties of the rounding
    they need as hypotheses ([rounding], [spaced]); [binary64] below is
    the rounding of binary64 arithmetic, and it has them. Scores stay
    between 0 and 2 and a finite raw score plus one is finite, so no
    operation overflows. *)

Module Rounded.

Section Arithmetic.
Variable rnd : Q -> Q.

Definition truediv (a b : Q) : result Q :=
  if Qeq_bool b 0 then Raise ZeroDivisionError else Ok (rnd (a / b))%Q.

Definition _transform_score (score : Q) : result Q :=
  if Qlt_le_dec score 0 then Ok 1%Q
  else truediv 1 (rnd (score + 1))%Q.

Definition _conflate_scores (score1 score2 : Q) : result Q :=
  truediv (rnd (score1 * score2))%Q
          (rnd (rnd (score1 * score2)
                + rnd (rnd (1 - score1) * rnd (1 - score2))))%Q.

Fixpoint combine_loop (suggestions : list (string * Q))
    (combined_suggestions : dict Q) : result (dict Q) :=
  match suggestions with
  | [] => Ok combined_suggestions
  | (uri, score) :: rest =>
      match dict_get combined_suggestions uri with
      | None => combine_loop rest (dict_set combined_suggestions uri score)
      | Some old_score =>
          s <- _conflate_scores score old_score ;;
          combine_loop rest (dict_set combined_suggestions uri s)
      end
  end.

Definition _combine_suggestions (suggestions : list (string * Q))
    : result (list (string * Q)) :=
  combine_loop suggestions [].

Fixpoint scored (uris : list string) (raw : Q) : result (list (string * Q)) :=
  match uris with
  | [] => Ok []
  | u :: rest =>
      s <- _transform_score raw ;;
      more <- scored rest raw ;;
      Ok ((u, s) :: more)
  end.

Fixpoint match_keyphrases (normalize_word : string -> string)
    (index : dict (list string)) (keyphrases : list (string * Q))
    : result (list (string * Q) * list (string * Q)) :=
  match keyphrases with
  | [] => Ok ([], [])
  | (kp, raw) :: rest =>
      let uris := _keyphrase2uris normalize_word index kp in
      here <- scored uris raw ;;
      missed <- match uris with
                | [] => s <- _transform_score raw ;; Ok [(kp, s)]
                | _ => Ok []
                end ;;
      ' (suggestions, not_matched) <- match_keyphrases normalize_word index rest ;;
      Ok (here ++ suggestions, missed ++ not_matched)
  end.

Definition _keyphrases2suggestions (normalize_word : string -> string)
    (index : dict (list string)) (keyphrases : list (string * Q))
    : result (list (string * Q)) :=
  ' (suggestions, not_matched) <-
      match_keyphrases normalize_word index keyphrases ;;
  _combine_suggestions suggestions.

End Arithmetic.

(** What the statements ask of the rounding: it keeps the order, leaves
    a rounded number as it is, and 0 and 1 are representable. *)
Record rounding (rnd : Q -> Q) : Prop := {
  rnd_monotone : forall x y, (x <= y)%Q -> (rnd x <= rnd y)%Q;
  rnd_fixed : forall x, (rnd (rnd x) == rnd x)%Q;
  rnd_zero : (rnd 0 == 0)%Q;
  rnd_one : (rnd 1 == 1)%Q
}.

(** The spacing of the representable numbers below 1: none lies strictly
    between [1 - u] and 1, [u] is representable and its square does not
    round to 0. For binary64, [u] is 2^-53. *)
Record spaced (rnd : Q -> Q) (u : Q) : Prop := {
  unit_positive : (0 < u)%Q;
  unit_fixed : (rnd u == u)%Q;
  below_one : forall x, (rnd x == x)%Q -> (x < 1)%Q -> (x <= 1 - u)%Q;
  unit_square : (0 < rnd (u * u))%Q
}.

(** A score of the rounded arithmetic: a representable number between 0
    and 1. *)
Definition grade (rnd : Q -> Q) (s : Q) : Prop :=
  (rnd s == s /\ 0 <= s /\ s <= 1)%Q.

(** The two scores at which the divisor of the combination is zero. *)
Definition extremes (a b : Q) : Prop :=
  (a == 1 /\ b == 0)%Q \/ (a == 0 /\ b == 1)%Q.

(** *** binary64

    Rounding to the nearest integer, ties to the even one. *)
Definition nearest_even (x : Q) : Z :=
  let f := Qfloor x in
  match (x - inject_Z f ?= 1 # 2)%Q with
  | Lt => f
  | Eq => if Z.even f then f else (f + 1)%Z
  | Gt => (f + 1)%Z
  end.

(** The exponent of the largest power of two that is not above [x], for
    [x] above 0. *)
Definition mag (x : Q) : Z :=
  let k := (Z.log2 (Qnum x) - Z.log2 (Z.pos (Qden x)))%Z in
  if Qle_bool (2 ^ k) x then k else (k - 1)%Z.

(** The exponent of the last place of a binary64 number of the size of
    [x]: 53 binary digits, and no exponent below -1074. *)
Definition last_place (x : Q) : Z := Z.max (mag x - 52) (-1074).

(** The multiple of [2 ^ last_place x] nearest to a positive [x]. *)
Definition round_positive (x : Q) : Q :=
  (inject_Z (nearest_even (x / 2 ^ last_place x)) * 2 ^ last_place x)%Q.

(** Rounding to the nearest binary64 number, ties to even. The exponent
    has no upper bound: a result above the largest binary64 number is
    rounded as if the format went on, not to infinity. *)
Definition binary64 (x : Q) : Q :=
  match (x ?= 0)%Q with
  | Eq => 0%Q
  | Gt => round_positive x
  | Lt => (- round_positive (- x))%Q
  end.

End Rounded.

(** ** Floats and the numbers they stand for *)

(** The number of a finite float. *)
Definition number (f : float) : option Q :=
  match Prim2SF f with
  | S754_zero _ => Some 0%Q
  | S754_finite s m e =>
      Some ((if s then - inject_Z (Z.pos m) else inject_Z (Z.pos m)) * 2 ^ e)%Q
  | S754_infinity _ => None
  | S754_nan => None
  end.

(** A result on floats and a result on numbers are the same outcome. *)
Definition same_outcome (r : result float) (q : result Q) : bool :=
  match r, q with
  | Ok f, Ok v =>
      match number f with
      | Some w => Qeq_bool w v
      | None => false
      end
  | Raise ZeroDivisionError, Raise ZeroDivisionError => true
  | _, _ => false
  end.

(** The two models of [_transform_score] have the same outcome at a raw
    score. *)
Definition transform_agrees (raw : float) : bool :=
  match number raw with
  | Some x =>
      same_outcome (Binary64._transform_score raw)
                   (Rounded._transform_score Rounded.binary64 x)
  | None => false
  end.

(** The two models of [_conflate_scores] have the same outcome at two
    scores. *)
Definition conflate_agrees (scores : float * float) : bool :=
  match number (fst scores), number (snd scores) with
  | Some x, Some y =>
      same_outcome (Binary64._conflate_scores (fst scores) (snd scores))
                   (Rounded._conflate_scores Rounded.binary64 x y)
  | _, _ => false
  end.

(** ** Vocabulary of the statements *)

(** Every character of [s] satisfies [p]. *)
Fixpoint all (p : ascii -> bool) (s : string) : bool :=
  match s with
  | EmptyString => true
  | String c s' => p c && all p s'
  end.

(** [s] has an occurrence of a space followed by an opening parenthesis. *)
Fixpoint has_open (s : string) : bool :=
  match s with
  | EmptyString => false
  | String c s' =>
      match s' with
      | String d _ => (is_char " " c && is_char "(" d) || has_open s'
      | EmptyString => false
      end
  end.

Fixpoint drop (n : nat) (s : string) : string :=
  match n, s with
  | S k, String _ s' => drop k s'
  | _, _ => s
  end.

(** The parenthesis stripping as the specification words it: the first
    occurrence of a space and a parenthesised run without nested
    parentheses is removed, once. [flat_close] is the length of the prefix
    matched by a run of non-parentheses closed by [)]. *)
Fixpoint flat_close (s : string) : option nat :=
  match s with
  | EmptyString => None
  | String c s' =>
      if is_char ")" c then Some 1
      else if is_char "(" c then None
      else match flat_close s' with
           | Some n => Some (S n)
           | None => None
           end
  end.

Fixpoint spec_strip_parenthetical (s : string) : string :=
  match s with
  | EmptyString => EmptyString
  | String c s' =>
      match s with
      | String " " (String "(" s'') =>
          match flat_close s'' with
          | Some n => drop n s''
          | None => String c (spec_strip_parenthetical s')
          end
      | _ => String c (spec_strip_parenthetical s')
      end
  end.

(** The assembler as the specification words it: drop the pairs whose
    score is not positive, then truncate. *)
Definition spec_assemble (combined : list (string * Q)) (limit : Z)
    : list SubjectSuggestion :=
  slice_to (subject_suggestions combined) limit.

Definition pair_of (s : SubjectSuggestion) : string * Q := (uri s, score s).

Definition positive (us : string * Q) : bool :=
  if Qlt_le_dec 0 (snd us) then true else false.

(** [r] is a returned score equal to [v]. *)
Definition returns (r : result Q) (v : Q) : Prop :=
  match r with
  | Ok y => (y == v)%Q
  | Raise _ => False
  end.

Definition unit_score (s : Q) : Prop := (0 < s /\ s <= 1)%Q.

(** Two indexes are the same mapping from key to set of URIs. *)
Definition same_set (a b : option (list string)) : Prop :=
  match a, b with
  | Some x, Some y => forall u, In u x <-> In u y
  | None, None => True
  | _, _ => False
  end.

Definition same_mapping (a b : dict (list string)) : Prop :=
  forall k, same_set (dict_get a k) (dict_get b k).

(** Keys and URIs that survive the index file. *)
Definition line_break (c : ascii) : bool := is_char LF c || is_char CR c.

Definition starts_nonspace (s : string) : bool :=
  match s with
  | EmptyString => false
  | String c _ => negb (isspace c)
  end.

(** A key that is not empty, does not begin with whitespace, and holds no
    tab and no line break. *)
Definition key_ok (k : string) : bool :=
  starts_nonspace k
  && all (fun c => negb (is_char TAB c || line_break c)) k.

(** A string that is not empty and holds no whitespace: what a URI must
    be to survive the index file, and what a word of [split] is. *)
Definition is_token (u : string) : bool :=
  negb (is_empty u) && all (fun c => negb (isspace c)) u.

(** An entry with a good key and a non-empty set of good URIs. *)
Definition entry_ok (e : string * list string) : bool :=
  key_ok (fst e) && negb (Nat.eqb (length (snd e)) 0) && forallb is_token (snd e).

(** The line [_save_index] writes for an entry, without its terminator. *)
Definition line_of (e : string * list string) : string :=
  (fst e ++ String TAB (join " " (snd e)))%string.

(** The tokens of a [label_types] parameter and whether one is a key of
    [mapping]. *)
Definition tokens (lt_param : string) : list string :=
  map strip (fields (is_char ",") lt_param).

Definition known (token : string) : bool :=
  match dict_get mapping token with
  | Some _ => true
  | None => false
  end.

(** A concept carries the deprecation mark. *)
Definition deprecated (g : Graph) (concept : string) : bool :=
  graph_contains g concept OWL_deprecated Literal_True.

(** What the builder keeps true of every URI it files: the concept is
    not deprecated and is one of the concepts of the graph. *)
Definition live (g : Graph) (uri : string) : Prop :=
  deprecated g uri = false
  /\ In uri (subjects g RDF_type (URIRef SKOS_Concept)).

Definition live_entry (g : Graph) (e : string * list string) : Prop :=
  Forall (live g) (snd e).

(** What the builder keeps true of every entry: the key is empty or a
    key the index file keeps, and the set is a non-empty set of live
    concepts. *)
Definition built_entry (g : Graph) (e : string * list string) : Prop :=
  (fst e = EmptyString \/ key_ok (fst e) = true)
  /\ snd e <> [] /\ Forall (live g) (snd e).

(** Every object of a label predicate of the graph is a literal. *)
Definition is_label_predicate (pred : string) : bool :=
  existsb (fun kv => String.eqb (snd kv) pred) mapping.

Definition is_literal (n : node) : bool :=
  match n with
  | Literal _ _ _ => true
  | URIRef _ => false
  end.

Definition literal_labels (g : Graph) : bool :=
  forallb (fun t => is_literal (object t)
                    || negb (is_label_predicate (predicate t))) g.

(** ** Fixtures of the examples *)

Definition strip_params : params :=
  {| language := "en"; label_types_param := None;
     default_label_types := ["pref"; "alt"]; remove_parentheses := true |}.

Definition pref_hidden_params : params :=
  {| language := "fi"; label_types_param := Some "pref, hidden";
     default_label_types := ["pref"; "alt"]; remove_parentheses := false |}.

Definition unknown_kind_params : params :=
  {| language := "fi"; label_types_param := Some "pref,related";
     default_label_types := ["pref"; "alt"]; remove_parentheses := false |}.

Definition example_params : params :=
  {| language := "en"; label_types_param := Some "pref,alt";
     default_label_types := ["pref"; "alt"]; remove_parentheses := true |}.

Definition en (text : string) : node := Literal text (Some "en") None.

(** Three concepts: [c1], the deprecated [c2], and [c3], one of whose
    labels normalises to the empty key. *)
Definition example_graph : Graph :=
  [ {| subject := "http://example.org/c1"; predicate := RDF_type;
       object := URIRef SKOS_Concept |};
    {| subject := "http://example.org/c1"; predicate := SKOS_prefLabel;
       object := en "Rock art (archaeology)" |};
    {| subject := "http://example.org/c1"; predicate := SKOS_altLabel;
       object := en "cave paintings" |};
    {| subject := "http://example.org/c2"; predicate := RDF_type;
       object := URIRef SKOS_Concept |};
    {| subject := "http://example.org/c2"; predicate := SKOS_prefLabel;
       object := en "rock carvings" |};
    {| subject := "http://example.org/c2"; predicate := OWL_deprecated;
       object := Literal_True |};
    {| subject := "http://example.org/c3"; predicate := RDF_type;
       object := URIRef SKOS_Concept |};
    {| subject := "http://example.org/c3"; predicate := SKOS_prefLabel;
       object := en "  " |};
    {| subject := "http://example.org/c3"; predicate := SKOS_altLabel;
       object := en "art rock" |};
    {| subject := "http://example.org/c3"; predicate := SKOS_prefLabel;
       object := Literal "kalliotaide" (Some "fi") None |} ].

Definition example_index : dict (list string) :=
  [ ("art rock", ["http://example.org/c1"; "http://example.org/c3"]);
    ("cave paintings", ["http://example.org/c1"]) ].

Definition pref_only_params : params :=
  {| language := "en"; label_types_param := Some "pref";
     default_label_types := ["pref"; "alt"]; remove_parentheses := true |}.

Definition example_pref_index : dict (list string) :=
  [ ("art rock", ["http://example.org/c1"]) ].

(** A graph whose only concept is deprecated. *)
Definition deprecated_graph : Graph :=
  [ {| subject := "http://example.org/c2"; predicate := RDF_type;
       object := URIRef SKOS_Concept |};
    {| subject := "http://example.org/c2"; predicate := SKOS_prefLabel;
       object := en "rock carvings" |};
    {| subject := "http://example.org/c2"; predicate := OWL_deprecated;
       object := Literal_True |} ].

(** An index file with one line, padded with spaces and ended by CR LF. *)
Definition padded_file : string :=
  (" a b" ++ String TAB ("u  v" ++ String CR (String LF "")))%string.

Definition bad_default_params : params :=
  {| language := "fi"; label_types_param := None;
     default_label_types := ["pref"; "related"]; remove_parentheses := false |}.

(** A graph in which a label is a resource, not a literal. *)
Definition resource_label_graph : Graph :=
  [ {| subject := "http://example.org/c1"; predicate := RDF_type;
       object := URIRef SKOS_Concept |};
    {| subject := "http://example.org/c1"; predicate := SKOS_altLabel;
       object := URIRef "http://example.org/label" |} ].

(** ** The instance and its index file *)

(** The part of a backend instance [_initialize_index] reads and writes:
    the [_index] attribute and the text of the file [yake-index] of the data
    directory, when the file exists. *)
Record backend : Type := {
  _index : option (dict (list string));
  index_file : option string
}.

Definition _initialize_index (normalize_word : string -> string)
    (g : Graph) (p : params) (self : backend) : result backend :=
  match _index self with
  | Some _ => Ok self
  | None =>
      match index_file self with
      | Some text =>
          index <- _load_index text ;;
          Ok {| _index := Some index; index_file := Some text |}
      | None =>
          index <- _create_index normalize_word g p ;;
          Ok {| _index := Some index; index_file := Some (_save_index index) |}
      end
  end.

(** ** Vocabulary of the further statements *)

(** The distinct strings of a list in the order of their first
    occurrence. *)
Definition first_occurrences (l : list string) : list string :=
  fold_left set_add l [].

(** [uri] is in the set the index keeps under [key]. *)
Definition indexed (index : dict (list string)) (key uri : string) : Prop :=
  exists uris, dict_get index key = Some uris /\ In uri uris.

(** A concept of the graph that does not carry the deprecation mark. *)
Definition live_concepts (g : Graph) : list string :=
  filter (fun c => negb (deprecated g c))
         (subjects g RDF_type (URIRef SKOS_Concept)).

(** The labels of the live concepts, of the kinds [lts], are literals. *)
Definition labels_are_literals (g : Graph) (lts : list string) : bool :=
  forallb (fun c => forallb (fun kind => forallb is_literal (objects g c kind))
                            lts)
          (live_concepts g).

(** [l] is a literal of language [lang]. *)
Definition in_language (lang : string) (l : node) : bool :=
  match l with
  | Literal _ llang _ => option_eqb llang (Some lang)
  | URIRef _ => false
  end.

(** The number of characters of [s] that satisfy [p]. *)
Fixpoint count (p : ascii -> bool) (s : string) : nat :=
  match s with
  | EmptyString => 0
  | String c s' => (if p c then 1 else 0) + count p s'
  end.

(** A line of the index file with exactly one tab once stripped. *)
Definition one_tab (line : string) : bool :=
  Nat.eqb (count (is_char TAB) (strip line)) 1.

(** A line of [readlines]: no line break but a final line feed. *)
Definition line_shape (l : string) : Prop :=
  exists body, all (fun c => negb (line_break c)) body = true
               /\ (l = body \/ l = (body ++ String LF "")%string).

(** The word the backend makes of a word of the text. *)
Definition lemma_of (normalize_word : string -> string) (word : string)
    : string :=
  lower (normalize_word word).

(** ** Strings *)

Lemma append_nil_r (s : string) : (s ++ "")%string = s.
Proof. induction s as [|c s IH]; simpl; [reflexivity | now rewrite IH]. Qed.

Lemma append_assoc (a b c : string) :
  ((a ++ b) ++ c)%string = (a ++ (b ++ c))%string.
Proof. induction a as [|x a IH]; simpl; [reflexivity | now rewrite IH]. Qed.

Lemma all_app (p : ascii -> bool) (a b : string) :
  all p (a ++ b) = all p a && all p b.
Proof.
  induction a as [|c a IH]; simpl; [reflexivity|].
  rewrite IH. now rewrite andb_assoc.
Qed.

Lemma all_impl (p q : ascii -> bool) (s : string) :
  (forall c, p c = true -> q c = true) -> all p s = true -> all q s = true.
Proof.
  intros Hpq. induction s as [|c s IH]; simpl; [reflexivity|].
  intros H. apply andb_true_iff in H as [Hc Hs].
  apply andb_true_iff. split; [now apply Hpq | now apply IH].
Qed.

Lemma is_char_true (d c : ascii) : is_char d c = true <-> c = d.
Proof. unfold is_char. apply Ascii.eqb_eq. Qed.

(** *** Parenthesis stripping *)

Lemma greedy_close_none (s : string) :
  all (fun c => negb (is_char ")" c)) s = true -> greedy_close s = None.
Proof.
  induction s as [|c s IH]; simpl; [reflexivity|].
  intros H. apply andb_true_iff in H as [Hc Hs].
  rewrite (IH Hs). apply negb_true_iff in Hc. rewrite Hc.
  now destruct (is_char LF c).
Qed.

Lemma greedy_close_last (mid post : string) :
  all (fun c => negb (is_char LF c)) mid = true ->
  all (fun c => negb (is_char ")" c)) post = true ->
  greedy_close (mid ++ String ")" post) = Some (S (String.length mid)).
Proof.
  intros Hmid Hpost. induction mid as [|c mid IH]; simpl.
  - now rewrite (greedy_close_none _ Hpost).
  - simpl in Hmid. apply andb_true_iff in Hmid as [Hc Hm].
    apply negb_true_iff in Hc. rewrite Hc. now rewrite (IH Hm).
Qed.

Lemma sub_scan_skip (a b : string) :
  sub_scan (String.length a) (a ++ b) = sub_scan 0 b.
Proof. induction a as [|c a IH]; simpl; [reflexivity | exact IH]. Qed.

Lemma match_here_none (s : string) :
  all (fun c => negb (is_char ")" c)) s = true -> match_here s = None.
Proof.
  intros H. destruct s as [|c [|d s]]; try reflexivity.
  - simpl. now destruct c as [[] [] [] [] [] [] [] []].
  - simpl in H. apply andb_true_iff in H as [_ H].
    apply andb_true_iff in H as [_ H].
    unfold match_here. rewrite (greedy_close_none _ H).
    destruct c as [[] [] [] [] [] [] [] []]; try reflexivity.
    destruct d as [[] [] [] [] [] [] [] []]; reflexivity.
Qed.

Lemma sub_scan_no_close (s : string) :
  all (fun c => negb (is_char ")" c)) s = true -> sub_scan 0 s = s.
Proof.
  induction s as [|c s IH]; [reflexivity|].
  intros H. change (sub_scan 0 (String c s)) with
    (match match_here (String c s) with
     | Some n => sub_scan (n - 1) s
     | None => String c (sub_scan 0 s)
     end).
  rewrite (match_here_none _ H). simpl in H.
  apply andb_true_iff in H as [_ H]. now rewrite (IH H).
Qed.

Lemma sub_scan_skip_more (a b : string) (k : nat) :
  sub_scan (String.length a + k) (a ++ b) = sub_scan k b.
Proof. induction a as [|c a IH]; simpl; [reflexivity | exact IH]. Qed.

Lemma match_here_head (c d : ascii) (s : string) :
  is_char " " c && is_char "(" d = false ->
  match_here (String c (String d s)) = None.
Proof.
  intros H. unfold match_here.
  destruct c as [[] [] [] [] [] [] [] []]; try reflexivity.
  destruct d as [[] [] [] [] [] [] [] []]; try reflexivity.
  discriminate H.
Qed.

Lemma match_here_single (c : ascii) : match_here (String c "") = None.
Proof. now destruct c as [[] [] [] [] [] [] [] []]. Qed.

Lemma sub_scan_step (c : ascii) (s : string) :
  sub_scan 0 (String c s) =
  match match_here (String c s) with
  | Some n => sub_scan (n - 1) s
  | None => String c (sub_scan 0 s)
  end.
Proof. reflexivity. Qed.

(** Removing the match that starts at the head of the text. *)
Lemma sub_scan_greedy (mid post : string) :
  all (fun c => negb (is_char LF c)) mid = true ->
  all (fun c => negb (is_char ")" c)) post = true ->
  sub_scan 0 (String " " (String "(" (mid ++ String ")" post))) = post.
Proof.
  intros Hmid Hpost. rewrite sub_scan_step.
  unfold match_here. rewrite (greedy_close_last _ _ Hmid Hpost).
  change (2 + S (String.length mid) - 1) with (S (S (String.length mid))).
  change (sub_scan (S (S (String.length mid)))
            (String "(" (mid ++ String ")" post)))
    with (sub_scan (S (String.length mid)) (mid ++ String ")" post)).
  replace (S (String.length mid)) with (String.length mid + 1) by lia.
  rewrite sub_scan_skip_more. simpl.
  now apply sub_scan_no_close.
Qed.

Lemma has_open_tail (c : ascii) (s : string) :
  has_open (String c s) = false -> has_open s = false.
Proof.
  simpl. destruct s as [|d s]; [reflexivity|].
  intros H. now apply orb_false_iff in H as [_ H].
Qed.

(** The scan copies a text without [ (] and then meets the match. *)
Lemma sub_scan_prefix (pre rest : string) :
  has_open pre = false ->
  sub_scan 0 (pre ++ String " " rest) =
  (pre ++ sub_scan 0 (String " " rest))%string.
Proof.
  induction pre as [|c pre IH]; intros Hopen; [reflexivity|].
  change ((String c pre ++ String " " rest)%string)
    with (String c (pre ++ String " " rest)).
  rewrite sub_scan_step.
  assert (Hnone : match_here (String c (pre ++ String " " rest)) = None).
  { destruct pre as [|d pre].
    - apply match_here_head. simpl. apply andb_false_r.
    - apply match_here_head. simpl in Hopen.
      now apply orb_false_iff in Hopen as [H _]. }
  rewrite Hnone. rewrite (IH (has_open_tail _ _ Hopen)). reflexivity.
Qed.

Lemma re_sub_parens_first_to_last (pre mid post : string) :
  has_open pre = false ->
  all (fun c => negb (is_char LF c)) mid = true ->
  all (fun c => negb (is_char ")" c)) post = true ->
  re_sub_parens (pre ++ String " " (String "(" (mid ++ String ")" post)))
  = (pre ++ post)%string.
Proof.
  intros Hpre Hmid Hpost. unfold re_sub_parens.
  rewrite (sub_scan_prefix _ _ Hpre).
  now rewrite (sub_scan_greedy _ _ Hmid Hpost).
Qed.

(** ** Normalisation at build time and at match time *)




(** C2, as the code has it: the key of a vocabulary label is the key of a
    keyphrase made of the same text once the parentheses were stripped from
    it; the two keys of one text agree when [remove_parentheses] is off or
    the text has no match of the pattern. *)
Theorem normalize_label_keyphrase_key
    (normalize_word : string -> string) (p : params)
    (phrase : string) (lang datatype : option string) :
  _normalize_label normalize_word p (Literal phrase lang datatype)
  = keyphrase_key normalize_word
      (if remove_parentheses p then re_sub_parens phrase else phrase)
  /\ (remove_parentheses p = false \/ re_sub_parens phrase = phrase ->
      _normalize_label normalize_word p (Literal phrase lang datatype)
      = keyphrase_key normalize_word phrase).
Proof.
  split.
  - reflexivity.
  - unfold _normalize_label, keyphrase_key. simpl str.
    intros [-> | H]; [reflexivity|].
    destruct (remove_parentheses p); [now rewrite H | reflexivity].
Qed.

(** C2, as the specification words it, fails with [remove_parentheses]
    set: the label [foo (bar)] is indexed under [foo] and the keyphrase
    [foo (bar)] is looked up under [(bar) foo]. *)
Lemma match_time_key_counterexample :
  _normalize_label (fun w => w) strip_params
    (Literal "foo (bar)" (Some "en") None) = "foo"
  /\ keyphrase_key (fun w => w) "foo (bar)" = "(bar) foo"
  /\ _keyphrase2uris (fun w => w) [("foo", ["http://example.org/c1"])]
       "foo (bar)" = [].
Proof. repeat split; reflexivity. Qed.

(** ** The suggestion assembler *)

Lemma subject_suggestions_filter (l : list (string * Q)) :
  map pair_of (subject_suggestions l) = filter positive l.
Proof.
  induction l as [|[u s] l IH]; [reflexivity|].
  simpl. unfold positive at 1. simpl.
  destruct (Qlt_le_dec 0 s); simpl; now rewrite IH.
Qed.

Lemma subject_suggestions_positive (l : list (string * Q)) :
  Forall (fun s => (0 < score s)%Q) (subject_suggestions l).
Proof.
  induction l as [|[u s] l IH]; simpl; [constructor|].
  destruct (Qlt_le_dec 0 s); [constructor; [exact q | exact IH] | exact IH].
Qed.

Lemma subject_suggestions_length (l : list (string * Q)) :
  length (subject_suggestions l) <= length l.
Proof.
  induction l as [|[u s] l IH]; simpl; [lia|].
  destruct (Qlt_le_dec 0 s); simpl; lia.
Qed.

Lemma subject_suggestions_all (l : list (string * Q)) :
  forallb positive l = true ->
  subject_suggestions l
  = map (fun us => {| uri := fst us; label := None; notation := None;
                      score := snd us |}) l.
Proof.
  induction l as [|[u s] l IH]; [reflexivity|].
  simpl. unfold positive at 1. simpl.
  destruct (Qlt_le_dec 0 s); simpl; [|discriminate].
  intros H. now rewrite (IH H).
Qed.

Lemma In_slice_to {A : Type} (l : list A) (limit : Z) (x : A) :
  In x (slice_to l limit) -> In x l.
Proof.
  unfold slice_to. intros H.
  destruct (0 <=? limit)%Z;
    match type of H with
    | In _ (firstn ?n _) => rewrite <- (firstn_skipn n l)
    end; apply in_or_app; now left.
Qed.

Lemma slice_to_map {A B : Type} (f : A -> B) (l : list A) (limit : Z) :
  slice_to (map f l) limit = map f (slice_to l limit).
Proof.
  unfold slice_to. rewrite length_map.
  destruct (0 <=? limit)%Z; now rewrite firstn_map.
Qed.

(** C4, as the code has it: the assembler first cuts the combined list to
    its first [limit] pairs and then drops the pairs whose score is not
    positive, in the order of the list; it returns at most [limit]
    suggestions, and it is the assembler of the specification when every
    score is positive. *)
Theorem assemble_truncates_then_drops (combined : list (string * Q)) (limit : Z) :
  map pair_of (assemble combined limit)
  = filter positive (slice_to combined limit)
  /\ Forall (fun s => (0 < score s)%Q) (assemble combined limit)
  /\ ((0 <= limit)%Z -> length (assemble combined limit) <= Z.to_nat limit)
  /\ (forallb positive combined = true ->
      assemble combined limit = spec_assemble combined limit).
Proof.
  unfold assemble. repeat split.
  - apply subject_suggestions_filter.
  - apply subject_suggestions_positive.
  - intros Hlimit.
    eapply Nat.le_trans; [apply subject_suggestions_length|].
    unfold slice_to. apply Z.leb_le in Hlimit. rewrite Hlimit.
    apply firstn_le_length.
  - intros Hall. unfold spec_assemble.
    rewrite (subject_suggestions_all combined Hall), slice_to_map.
    apply subject_suggestions_all.
    apply forallb_forall. intros x Hx.
    rewrite forallb_forall in Hall. apply Hall.
    exact (In_slice_to _ _ _ Hx).
Qed.

Lemma assemble_truncates_then_drops_witness :
  length (assemble [("a", 1%Q); ("b", (1 # 2)%Q); ("c", (1 # 3)%Q)] 2) <= 2
  /\ assemble [("a", 1%Q); ("b", (1 # 2)%Q); ("c", (1 # 3)%Q)] 2
     = spec_assemble [("a", 1%Q); ("b", (1 # 2)%Q); ("c", (1 # 3)%Q)] 2.
Proof.
  pose proof (assemble_truncates_then_drops
                [("a", 1%Q); ("b", (1 # 2)%Q); ("c", (1 # 3)%Q)] 2)
    as (_ & _ & Hlen & Hspec).
  split; [apply Hlen; lia | apply Hspec; reflexivity].
Defined.

(** C4, as the specification words it, fails when a pair among the first
    [limit] has score 0: the later positive pair does not fill the limit. *)
Lemma assemble_counterexample :
  assemble [("a", 0%Q); ("b", (1 # 2)%Q)] 1 = []
  /\ spec_assemble [("a", 0%Q); ("b", (1 # 2)%Q)] 1
     = [ {| uri := "b"; label := None; notation := None;
            score := (1 # 2)%Q |} ].
Proof. split; reflexivity. Qed.

(** ** Label kinds *)

Lemma lookup_kinds_known (f : string -> string) (entries : list string) :
  forallb known (map f entries) = true ->
  exists kinds, lookup_kinds f entries = Ok kinds
                /\ map (dict_get mapping) (map f entries) = map Some kinds.
Proof.
  induction entries as [|lt rest IH]; intros H.
  - exists []. split; reflexivity.
  - simpl in H. apply andb_true_iff in H as [Hlt Hrest].
    destruct (IH Hrest) as (kinds & Hk & Hm).
    unfold known in Hlt. cbn [lookup_kinds map].
    destruct (dict_get mapping (f lt)) as [kind|] eqn:E; [|discriminate].
    exists (kind :: kinds). rewrite Hk. split; [reflexivity|].
    cbn [map]. now rewrite Hm.
Qed.

Lemma lookup_kinds_unknown (f : string -> string) (entries : list string) :
  forallb known (map f entries) = false ->
  exists token, In token (map f entries) /\ known token = false
                /\ lookup_kinds f entries = Raise (KeyError token).
Proof.
  induction entries as [|lt rest IH]; intros H; [discriminate|].
  simpl in H. cbn [lookup_kinds map].
  destruct (known (f lt)) eqn:Hlt.
  - simpl in H. destruct (IH H) as (token & Hin & Hun & Hr).
    exists token. repeat split; [now right | exact Hun |].
    unfold known in Hlt.
    destruct (dict_get mapping (f lt)); [|discriminate].
    now rewrite Hr.
  - exists (f lt). repeat split; [now left | exact Hlt |].
    unfold known in Hlt.
    now destruct (dict_get mapping (f lt)).
Qed.


(** ** Scores *)

Lemma truediv_nonzero (a b : Q) : ~ (b == 0)%Q -> truediv a b = Ok (a / b)%Q.
Proof.
  intros H. unfold truediv.
  destruct (Qeq_bool b 0) eqn:E; [|reflexivity].
  now apply Qeq_bool_iff in E.
Qed.

Lemma truediv_zero (a b : Q) : (b == 0)%Q -> truediv a b = Raise ZeroDivisionError.
Proof. intros H. unfold truediv. now rewrite (Qeq_eq_bool _ _ H). Qed.

Lemma transform_score_negative (raw : Q) :
  (raw < 0)%Q -> _transform_score raw = Ok 1%Q.
Proof.
  intros H. unfold _transform_score.
  destruct (Qlt_le_dec raw 0) as [_|Hle]; [reflexivity|].
  exfalso. apply (Qlt_irrefl raw). now apply Qlt_le_trans with 0%Q.
Qed.

Lemma transform_score_nonnegative (raw : Q) :
  (0 <= raw)%Q -> _transform_score raw = Ok (1 / (raw + 1))%Q.
Proof.
  intros H. unfold _transform_score.
  destruct (Qlt_le_dec raw 0) as [Hlt|_].
  - exfalso. apply (Qlt_irrefl raw). now apply Qlt_le_trans with 0%Q.
  - apply truediv_nonzero. lra.
Qed.

Lemma inverse_unit (raw : Q) : (0 <= raw)%Q -> unit_score (1 / (raw + 1))%Q.
Proof.
  intros H. split.
  - apply Qlt_shift_div_l; lra.
  - apply Qle_shift_div_r; lra.
Qed.

Lemma transform_score_unit (raw : Q) :
  exists s, _transform_score raw = Ok s /\ unit_score s.
Proof.
  destruct (Qlt_le_dec raw 0) as [Hlt|Hle].
  - exists 1%Q. split; [now apply transform_score_negative|].
    split; [reflexivity | apply Qle_refl].
  - exists (1 / (raw + 1))%Q.
    split; [now apply transform_score_nonnegative | now apply inverse_unit].
Qed.

Lemma transform_score_decreasing (x y : Q) :
  (0 <= x)%Q -> (x < y)%Q ->
  exists a b, _transform_score x = Ok a /\ _transform_score y = Ok b
              /\ (b < a)%Q.
Proof.
  intros Hx Hxy.
  exists (1 / (x + 1))%Q, (1 / (y + 1))%Q.
  split; [now apply transform_score_nonnegative|].
  split; [apply transform_score_nonnegative; lra|].
  unfold Qdiv. rewrite !Qmult_1_l.
  apply (Qinv_lt_contravar (x + 1) (y + 1)); lra.
Qed.


Lemma conflate_scores_with_one (x : Q) :
  ~ (x == 0)%Q ->
  returns (_conflate_scores 1 x) 1 /\ returns (_conflate_scores x 1) 1.
Proof.
  intros Hx. unfold _conflate_scores.
  rewrite !truediv_nonzero.
  - split; simpl; field; intros E; apply Hx; lra.
  - intros E. apply Hx. lra.
  - intros E. apply Hx. lra.
Qed.

(** C1 on the code: with the scores 1.0 and 0.0 the divisor is zero and
    the function raises [ZeroDivisionError], in exact arithmetic and on
    binary64 numbers alike. *)
Theorem conflate_scores_one_zero :
  _conflate_scores 1 0 = Raise ZeroDivisionError
  /\ _conflate_scores 0 1 = Raise ZeroDivisionError
  /\ Binary64._conflate_scores 1 0 = Raise ZeroDivisionError
  /\ Binary64._conflate_scores 0 1 = Raise ZeroDivisionError.
Proof. repeat split; vm_compute; reflexivity. Qed.

(** X21: the combination gives the same result for its two scores in
    either order: equal scores, or [ZeroDivisionError] both ways. *)
Lemma conflate_scores_comm (a b : Q) :
  match _conflate_scores a b, _conflate_scores b a with
  | Ok s, Ok t => (s == t)%Q
  | Raise e, Raise e' => e = e'
  | _, _ => False
  end.
Proof.
  unfold _conflate_scores, truediv.
  assert (Hd : (a * b + (1 - a) * (1 - b) == b * a + (1 - b) * (1 - a))%Q)
    by ring.
  destruct (Qeq_bool (a * b + (1 - a) * (1 - b)) 0) eqn:E1;
    destruct (Qeq_bool (b * a + (1 - b) * (1 - a)) 0) eqn:E2.
  - reflexivity.
  - apply Qeq_bool_iff in E1. apply Qeq_bool_neq in E2.
    apply E2. now rewrite <- Hd.
  - apply Qeq_bool_iff in E2. apply Qeq_bool_neq in E1.
    apply E1. now rewrite Hd.
  - rewrite Hd. now rewrite (Qmult_comm a b).
Qed.

Lemma conflate_denominator_positive (a b : Q) :
  unit_score a -> unit_score b ->
  (0 < a * b /\ 0 <= (1 - a) * (1 - b)
   /\ 0 < a * b + (1 - a) * (1 - b))%Q.
Proof.
  intros [Ha Ha1] [Hb Hb1].
  assert (H1 : (0 < a * b)%Q) by now apply Qmult_lt_0_compat.
  assert (H2 : (0 <= (1 - a) * (1 - b))%Q) by (apply Qmult_le_0_compat; lra).
  repeat split; [exact H1 | exact H2 | lra].
Qed.

Lemma conflate_scores_unit (a b : Q) :
  unit_score a -> unit_score b ->
  exists s, _conflate_scores a b = Ok s /\ unit_score s.
Proof.
  intros Ha Hb.
  destruct (conflate_denominator_positive a b Ha Hb) as (H1 & H2 & H3).
  exists (a * b / (a * b + (1 - a) * (1 - b)))%Q. split.
  - apply truediv_nonzero. lra.
  - split.
    + apply Qlt_shift_div_l; [exact H3 | lra].
    + apply Qle_shift_div_r; [exact H3 | lra].
Qed.

Lemma conflate_value_assoc (a b c : Q) :
  unit_score a -> unit_score b -> unit_score c ->
  let ab := (a * b / (a * b + (1 - a) * (1 - b)))%Q in
  let bc := (b * c / (b * c + (1 - b) * (1 - c)))%Q in
  (ab * c / (ab * c + (1 - ab) * (1 - c)) ==
   a * bc / (a * bc + (1 - a) * (1 - bc)))%Q.
Proof.
  intros Ha Hb Hc ab bc.
  destruct (conflate_denominator_positive a b Ha Hb) as (H1 & H2 & H3).
  destruct (conflate_denominator_positive b c Hb Hc) as (H4 & H5 & H6).
  assert (H7 : (0 < a * (b * c))%Q)
    by (apply Qmult_lt_0_compat; [apply Ha | exact H4]).
  assert (H8 : (0 <= (1 - a) * (b * c + (1 - b) * (1 - c) - b * c))%Q).
  { destruct Ha as [_ Ha]. apply Qmult_le_0_compat; lra. }
  subst ab bc. field. repeat split; lra.
Qed.

(** In exact arithmetic the combination rule does not depend on how three
    scores of (0, 1] are bracketed: all four combinations return, and
    combining a with b and the result with c equals combining a with the
    combination of b and c. *)
Lemma conflate_scores_assoc (a b c : Q) :
  unit_score a -> unit_score b -> unit_score c ->
  exists ab bc l r,
    _conflate_scores a b = Ok ab /\ _conflate_scores ab c = Ok l
    /\ _conflate_scores b c = Ok bc /\ _conflate_scores a bc = Ok r
    /\ (l == r)%Q.
Proof.
  intros Ha Hb Hc.
  destruct (conflate_denominator_positive a b Ha Hb) as (H1 & H2 & H3).
  destruct (conflate_denominator_positive b c Hb Hc) as (H4 & H5 & H6).
  destruct (conflate_scores_unit a b Ha Hb) as (ab & Eab & Uab).
  destruct (conflate_scores_unit b c Hb Hc) as (bc & Ebc & Ubc).
  destruct (conflate_denominator_positive ab c Uab Hc) as (_ & _ & H7).
  destruct (conflate_denominator_positive a bc Ha Ubc) as (_ & _ & H8).
  unfold _conflate_scores in *.
  rewrite truediv_nonzero in Eab by lra. injection Eab as <-.
  rewrite truediv_nonzero in Ebc by lra. injection Ebc as <-.
  eexists _, _, _, _.
  split; [apply truediv_nonzero; lra|].
  split; [apply truediv_nonzero; lra|].
  split; [apply truediv_nonzero; lra|].
  split; [apply truediv_nonzero; lra|].
  now apply conflate_value_assoc.
Qed.

(** On binary64 numbers the two bracketings can differ in the last bits:
    with the floats next to 0.14, 0.84 and 0.76 they give the floats next
    to 0.73019607843137257 and 0.73019607843137269. *)
Lemma conflate_scores_bracketing_binary64 :
  (ab <- Binary64._conflate_scores 0x1.1eb851eb851ecp-3 0x1.ae147ae147ae1p-1 ;;
   Binary64._conflate_scores ab 0x1.851eb851eb852p-1)
  = Ok 0x1.75dc42a90f75ep-1%float
  /\ (bc <- Binary64._conflate_scores 0x1.ae147ae147ae1p-1 0x1.851eb851eb852p-1 ;;
      Binary64._conflate_scores 0x1.1eb851eb851ecp-3 bc)
     = Ok 0x1.75dc42a90f75fp-1%float.
Proof. split; vm_compute; reflexivity. Qed.

(** C7 on the code: at the four pairs of scores of the test-suite the
    function returns 0.5, 0.9, 2/9 and 0.4 (the tests expect 0.8, 0.96,
    0.625 and 0.75); on binary64 numbers the first two are 0.5 and the
    double next to 0.9. *)
Theorem conflate_scores_test_values :
  returns (_conflate_scores (1 # 2) (1 # 2)) (1 # 2)
  /\ returns (_conflate_scores (3 # 4) (3 # 4)) (9 # 10)
  /\ returns (_conflate_scores (4 # 10) (3 # 10)) (2 # 9)
  /\ returns (_conflate_scores (4 # 10) (5 # 10)) (4 # 10)
  /\ Binary64._conflate_scores 0.5 0.5 = Ok 0.5%float
  /\ Binary64._conflate_scores 0.75 0.75 = Ok 0x1.ccccccccccccdp-1%float.
Proof. repeat split; vm_compute; reflexivity. Qed.

(** ** Dictionaries *)

Section DictFacts.
Context {V : Type}.
Implicit Types (d : dict V) (k : string) (v : V).

Lemma dict_get_In d k v : dict_get d k = Some v -> In (k, v) d.
Proof.
  induction d as [|[k' v'] d IH]; simpl; [discriminate|].
  destruct (String.eqb k' k) eqn:E.
  - apply String.eqb_eq in E. intros [= ->]. subst. now left.
  - intros H. right. now apply IH.
Qed.

Lemma dict_get_None d k : dict_get d k = None <-> ~ In k (keys d).
Proof.
  induction d as [|[k' v'] d IH]; simpl; [tauto|].
  destruct (String.eqb k' k) eqn:E.
  - apply String.eqb_eq in E. split; [discriminate | intros H; tauto].
  - apply String.eqb_neq in E. rewrite IH. tauto.
Qed.

Lemma dict_set_Forall (P : string * V -> Prop) d k v :
  Forall P d -> P (k, v) -> Forall P (dict_set d k v).
Proof.
  intros Hd Hkv. induction Hd as [|[k' v'] d Hx Hd IH]; simpl.
  - now constructor.
  - destruct (String.eqb k' k) eqn:E.
    + apply String.eqb_eq in E. subst. now constructor.
    + now constructor.
Qed.

Lemma dict_set_fresh d k v :
  ~ In k (keys d) -> dict_set d k v = d ++ [(k, v)].
Proof.
  induction d as [|[k' v'] d IH]; simpl; [reflexivity|].
  intros H. destruct (String.eqb k' k) eqn:E.
  - apply String.eqb_eq in E. tauto.
  - rewrite IH; [reflexivity | tauto].
Qed.

Lemma dict_pop_Forall (P : string * V -> Prop) d k :
  Forall P d -> Forall P (dict_pop d k).
Proof.
  intros Hd. induction Hd as [|[k' v'] d Hx Hd IH]; simpl; [constructor|].
  destruct (String.eqb k' k); [exact IH | now constructor].
Qed.

Lemma dict_pop_gone d k : ~ In k (keys (dict_pop d k)).
Proof.
  induction d as [|[k' v'] d IH]; simpl; [tauto|].
  destruct (String.eqb k' k) eqn:E; [exact IH|].
  apply String.eqb_neq in E. simpl. tauto.
Qed.
End DictFacts.

(** ** Scores under rounding *)

Section RoundedScores.
Variable rnd : Q -> Q.
Hypothesis Hr : Rounded.rounding rnd.

Lemma rnd_proper (x y : Q) : (x == y)%Q -> (rnd x == rnd y)%Q.
Proof.
  intros E. apply Qle_antisym; apply (Rounded.rnd_monotone rnd Hr);
    rewrite E; apply Qle_refl.
Qed.

Lemma rnd_nonneg (x : Q) : (0 <= x)%Q -> (0 <= rnd x)%Q.
Proof.
  intros H. rewrite <- (Rounded.rnd_zero rnd Hr).
  now apply (Rounded.rnd_monotone rnd Hr).
Qed.

Lemma rnd_le_one (x : Q) : (x <= 1)%Q -> (rnd x <= 1)%Q.
Proof.
  intros H. rewrite <- (Rounded.rnd_one rnd Hr).
  now apply (Rounded.rnd_monotone rnd Hr).
Qed.

Lemma rnd_ge_one (x : Q) : (1 <= x)%Q -> (1 <= rnd x)%Q.
Proof.
  intros H. rewrite <- (Rounded.rnd_one rnd Hr) at 1.
  now apply (Rounded.rnd_monotone rnd Hr).
Qed.

Lemma rounded_truediv_nonzero (a b : Q) :
  ~ (b == 0)%Q -> Rounded.truediv rnd a b = Ok (rnd (a / b)).
Proof.
  intros H. unfold Rounded.truediv.
  destruct (Qeq_bool b 0) eqn:E; [|reflexivity].
  now apply Qeq_bool_iff in E.
Qed.

Lemma rounded_transform_negative (raw : Q) :
  (raw < 0)%Q -> Rounded._transform_score rnd raw = Ok 1%Q.
Proof.
  intros H. unfold Rounded._transform_score.
  destruct (Qlt_le_dec raw 0) as [_|Hle]; [reflexivity|].
  exfalso. apply (Qlt_irrefl raw). now apply Qlt_le_trans with 0%Q.
Qed.

Lemma rounded_transform_nonnegative (raw : Q) :
  (0 <= raw)%Q ->
  Rounded._transform_score rnd raw = Ok (rnd (1 / rnd (raw + 1))).
Proof.
  intros H. unfold Rounded._transform_score.
  destruct (Qlt_le_dec raw 0) as [Hlt|_].
  - exfalso. apply (Qlt_irrefl raw). now apply Qlt_le_trans with 0%Q.
  - apply rounded_truediv_nonzero.
    assert (1 <= rnd (raw + 1))%Q by (apply rnd_ge_one; lra). lra.
Qed.

Lemma grade_one : Rounded.grade rnd 1.
Proof.
  split; [apply (Rounded.rnd_one rnd Hr)|].
  split; [discriminate | apply Qle_refl].
Qed.

Lemma grade_rnd (x : Q) : (0 <= x)%Q -> (x <= 1)%Q -> Rounded.grade rnd (rnd x).
Proof.
  intros H0 H1. split; [apply (Rounded.rnd_fixed rnd Hr)|].
  split; [now apply rnd_nonneg | now apply rnd_le_one].
Qed.

Lemma rounded_inverse_grade (raw : Q) :
  (0 <= raw)%Q -> Rounded.grade rnd (rnd (1 / rnd (raw + 1))).
Proof.
  intros H.
  assert (H1 : (1 <= rnd (raw + 1))%Q) by (apply rnd_ge_one; lra).
  apply grade_rnd.
  - apply Qle_shift_div_l; lra.
  - apply Qle_shift_div_r; lra.
Qed.

Lemma rounded_transform_grade (raw : Q) :
  exists s, Rounded._transform_score rnd raw = Ok s /\ Rounded.grade rnd s.
Proof.
  destruct (Qlt_le_dec raw 0) as [Hlt|Hle].
  - exists 1%Q. split; [now apply rounded_transform_negative | apply grade_one].
  - exists (rnd (1 / rnd (raw + 1))).
    split; [now apply rounded_transform_nonnegative
           | now apply rounded_inverse_grade].
Qed.

Lemma rounded_transform_zero :
  exists t, Rounded._transform_score rnd 0 = Ok t /\ (t == 1)%Q.
Proof.
  exists (rnd (1 / rnd (0 + 1))).
  split; [apply rounded_transform_nonnegative; apply Qle_refl|].
  assert (E : (rnd (0 + 1) == 1)%Q).
  { rewrite (rnd_proper (0 + 1) 1) by ring. apply (Rounded.rnd_one rnd Hr). }
  rewrite (rnd_proper (1 / rnd (0 + 1)) 1).
  - apply (Rounded.rnd_one rnd Hr).
  - rewrite E. reflexivity.
Qed.

Lemma rounded_transform_monotone (x y : Q) :
  (0 <= x)%Q -> (x <= y)%Q ->
  exists a b, Rounded._transform_score rnd x = Ok a
              /\ Rounded._transform_score rnd y = Ok b /\ (b <= a)%Q.
Proof.
  intros Hx Hxy.
  exists (rnd (1 / rnd (x + 1))), (rnd (1 / rnd (y + 1))).
  split; [now apply rounded_transform_nonnegative|].
  split; [apply rounded_transform_nonnegative; lra|].
  assert (H1 : (1 <= rnd (x + 1))%Q) by (apply rnd_ge_one; lra).
  assert (H2 : (rnd (x + 1) <= rnd (y + 1))%Q)
    by (apply (Rounded.rnd_monotone rnd Hr); lra).
  apply (Rounded.rnd_monotone rnd Hr).
  apply Qle_shift_div_l; [lra|].
  unfold Qdiv. rewrite Qmult_1_l.
  setoid_replace (/ rnd (y + 1) * rnd (x + 1))%Q
    with (rnd (x + 1) / rnd (y + 1))%Q by (unfold Qdiv; ring).
  apply Qle_shift_div_r; lra.
Qed.

#[local] Instance rnd_Proper : Proper (Qeq ==> Qeq) rnd.
Proof. intros x y E. now apply rnd_proper. Qed.

Section Combination.
Variable u : Q.
Hypothesis Hu : Rounded.spaced rnd u.

Lemma rounded_complement (a : Q) :
  Rounded.grade rnd a -> (a < 1)%Q -> (u <= rnd (1 - a))%Q.
Proof.
  intros (Ha & _ & _) Hlt.
  pose proof (Rounded.below_one rnd u Hu a Ha Hlt) as Hgap.
  rewrite <- (Rounded.unit_fixed rnd u Hu) at 1.
  apply (Rounded.rnd_monotone rnd Hr). lra.
Qed.

Lemma rounded_complements_positive (a b : Q) :
  Rounded.grade rnd a -> Rounded.grade rnd b -> (a < 1)%Q -> (b < 1)%Q ->
  (0 < rnd (rnd (1 - a) * rnd (1 - b)))%Q.
Proof.
  intros Ha Hb Ha1 Hb1.
  pose proof (rounded_complement a Ha Ha1) as Ua.
  pose proof (rounded_complement b Hb Hb1) as Ub.
  pose proof (Rounded.unit_positive rnd u Hu) as Upos.
  apply Qlt_le_trans with (rnd (u * u)); [apply (Rounded.unit_square rnd u Hu)|].
  apply (Rounded.rnd_monotone rnd Hr).
  apply Qle_trans with (u * rnd (1 - b))%Q.
  - apply Qmult_le_l; [exact Upos | exact Ub].
  - apply Qmult_le_compat_r; [exact Ua | lra].
Qed.

Lemma rounded_conflate_parts (a b : Q) :
  Rounded.grade rnd a -> Rounded.grade rnd b ->
  let p := rnd (a * b) in
  let q := rnd (rnd (1 - a) * rnd (1 - b)) in
  (0 <= p /\ 0 <= q /\ p <= rnd (p + q) /\ q <= rnd (p + q))%Q.
Proof.
  intros (_ & Ha0 & Ha1) (_ & Hb0 & Hb1) p q.
  assert (Hp : (0 <= p)%Q)
    by (apply rnd_nonneg; now apply Qmult_le_0_compat).
  assert (Hq : (0 <= q)%Q).
  { apply rnd_nonneg. apply Qmult_le_0_compat; apply rnd_nonneg; lra. }
  split; [exact Hp|]. split; [exact Hq|]. split.
  - apply Qle_trans with (rnd p).
    + subst p. rewrite (Rounded.rnd_fixed rnd Hr). apply Qle_refl.
    + apply (Rounded.rnd_monotone rnd Hr). lra.
  - apply Qle_trans with (rnd q).
    + subst q. rewrite (Rounded.rnd_fixed rnd Hr). apply Qle_refl.
    + apply (Rounded.rnd_monotone rnd Hr). lra.
Qed.

Lemma rounded_divisor_extremes (a b : Q) :
  Rounded.extremes a b ->
  (rnd (rnd (a * b) + rnd (rnd (1 - a) * rnd (1 - b))) == 0)%Q.
Proof.
  pose proof (Rounded.rnd_zero rnd Hr) as Z.
  intros X.
  assert (P : (rnd (a * b) == 0)%Q).
  { rewrite (rnd_proper (a * b) 0); [exact Z|].
    destruct X as [[Ea Eb]|[Ea Eb]]; rewrite Ea, Eb; ring. }
  assert (C : (rnd (rnd (1 - a) * rnd (1 - b)) == 0)%Q).
  { rewrite (rnd_proper (rnd (1 - a) * rnd (1 - b)) 0); [exact Z|].
    destruct X as [[Ea _]|[_ Eb]].
    - rewrite (rnd_proper (1 - a) 0) by (rewrite Ea; ring). rewrite Z. ring.
    - rewrite (rnd_proper (1 - b) 0) by (rewrite Eb; ring). rewrite Z. ring. }
  rewrite (rnd_proper _ 0); [exact Z|]. rewrite P, C. ring.
Qed.

Lemma rounded_divisor_zero (a b : Q) :
  Rounded.grade rnd a -> Rounded.grade rnd b ->
  (rnd (rnd (a * b) + rnd (rnd (1 - a) * rnd (1 - b))) == 0)%Q ->
  Rounded.extremes a b.
Proof.
  intros Ha Hb Hd.
  destruct (rounded_conflate_parts a b Ha Hb) as (Hp & Hq & Hpd & Hqd).
  cbv zeta in *.
  assert (Ep : (rnd (a * b) == 0)%Q) by lra.
  assert (Eq : (rnd (rnd (1 - a) * rnd (1 - b)) == 0)%Q) by lra.
  destruct Ha as (Fa & Ha0 & Ha1). destruct Hb as (Fb & Hb0 & Hb1).
  destruct (Qlt_le_dec a 1) as [La|La].
  - destruct (Qlt_le_dec b 1) as [Lb|Lb].
    + exfalso.
      pose proof (rounded_complements_positive a b
                    (conj Fa (conj Ha0 Ha1)) (conj Fb (conj Hb0 Hb1)) La Lb).
      lra.
    + right. assert (Eb : (b == 1)%Q) by lra. split; [|exact Eb].
      rewrite Eb in Ep. setoid_replace (a * 1)%Q with a in Ep by ring.
      now rewrite Fa in Ep.
  - left. assert (Ea : (a == 1)%Q) by lra. split; [exact Ea|].
    rewrite Ea in Ep. setoid_replace (1 * b)%Q with b in Ep by ring.
    now rewrite Fb in Ep.
Qed.

Lemma rounded_conflate_grade (a b : Q) :
  Rounded.grade rnd a -> Rounded.grade rnd b ->
  match Rounded._conflate_scores rnd a b with
  | Ok s => Rounded.grade rnd s /\ ~ Rounded.extremes a b
  | Raise e => e = ZeroDivisionError /\ Rounded.extremes a b
  end.
Proof.
  intros Ha Hb. unfold Rounded._conflate_scores, Rounded.truediv.
  destruct (rounded_conflate_parts a b Ha Hb) as (Hp & Hq & Hpd & Hqd).
  cbv zeta in *.
  destruct (Qeq_bool (rnd (rnd (a * b) + rnd (rnd (1 - a) * rnd (1 - b)))) 0)
    eqn:E.
  - apply Qeq_bool_iff in E. split; [reflexivity|].
    now apply rounded_divisor_zero.
  - apply Qeq_bool_neq in E. split.
    + apply grade_rnd.
      * apply Qle_shift_div_l; lra.
      * apply Qle_shift_div_r; lra.
    + intros X. apply E. now apply rounded_divisor_extremes.
Qed.

Lemma rounded_combine_loop_grade (suggestions : list (string * Q)) :
  forall combined : dict Q,
    Forall (fun us => Rounded.grade rnd (snd us)) suggestions ->
    Forall (fun us => Rounded.grade rnd (snd us)) combined ->
    match Rounded.combine_loop rnd suggestions combined with
    | Ok out => Forall (fun us => Rounded.grade rnd (snd us)) out
    | Raise e => e = ZeroDivisionError
    end.
Proof.
  induction suggestions as [|[uri s] rest IH]; intros combined Hs Hc.
  - exact Hc.
  - inversion Hs as [|? ? Hhead Hrest]; subst. simpl in Hhead.
    cbn [Rounded.combine_loop].
    destruct (dict_get combined uri) as [old|] eqn:E.
    + assert (Hold : Rounded.grade rnd old).
      { apply dict_get_In in E.
        rewrite Forall_forall in Hc. exact (Hc _ E). }
      pose proof (rounded_conflate_grade s old Hhead Hold) as Hc'.
      destruct (Rounded._conflate_scores rnd s old) as [c|e]; cbn [bind].
      * apply IH; [exact Hrest | apply dict_set_Forall; [exact Hc | apply Hc']].
      * apply Hc'.
    + apply IH; [exact Hrest | now apply dict_set_Forall].
Qed.

Section RoundedMatching.
Variable normalize_word : string -> string.

Lemma rounded_scored_grade (uris : list string) (raw : Q) :
  exists l, Rounded.scored rnd uris raw = Ok l
    /\ Forall (fun us => Rounded._transform_score rnd raw = Ok (snd us)) l.
Proof.
  destruct (rounded_transform_grade raw) as (s & Hs & _).
  induction uris as [|x rest (l & Hl & Hf)].
  - exists []. now split.
  - exists ((x, s) :: l). split.
    + cbn [Rounded.scored]. now rewrite Hs, Hl.
    + constructor; [exact Hs | exact Hf].
Qed.

(** The matching loop returns, and every score it hands to the
    combination is the transform of the raw score of a keyphrase. *)
Lemma rounded_match_keyphrases_fed (index : dict (list string))
    (keyphrases : list (string * Q)) :
  exists fed not_matched,
    Rounded.match_keyphrases rnd normalize_word index keyphrases
      = Ok (fed, not_matched)
    /\ Forall (fun us => exists kr, In kr keyphrases
                  /\ Rounded._transform_score rnd (snd kr) = Ok (snd us)) fed.
Proof.
  induction keyphrases as [|[kp raw] rest (fed & nm & Hm & Hf)].
  - exists [], []. now split.
  - cbn [Rounded.match_keyphrases].
    destruct (rounded_scored_grade
                (_keyphrase2uris normalize_word index kp) raw)
      as (here & Hh & Hhf).
    destruct (rounded_transform_grade raw) as (s & Hs & _).
    rewrite Hh, Hm. cbn [bind].
    assert (Hall : Forall (fun us => exists kr, In kr ((kp, raw) :: rest)
                     /\ Rounded._transform_score rnd (snd kr) = Ok (snd us))
                     (here ++ fed)).
    { apply Forall_app. split.
      - eapply Forall_impl; [|exact Hhf]. intros us H.
        exists (kp, raw). split; [now left | exact H].
      - eapply Forall_impl; [|exact Hf]. intros us (kr & Hin & H).
        exists kr. split; [now right | exact H]. }
    destruct (_keyphrase2uris normalize_word index kp) as [|x xs].
    + rewrite Hs. cbn [bind]. eexists _, _. split; [reflexivity | exact Hall].
    + cbn [bind]. eexists _, _. split; [reflexivity | exact Hall].
Qed.

Lemma rounded_fed_grade (raws : list (string * Q)) (fed : list (string * Q)) :
  Forall (fun us => exists kr, In kr raws
            /\ Rounded._transform_score rnd (snd kr) = Ok (snd us)) fed ->
  Forall (fun us => Rounded.grade rnd (snd us)) fed.
Proof.
  intros H. eapply Forall_impl; [|exact H].
  intros us (kr & _ & Hk).
  destruct (rounded_transform_grade (snd kr)) as (s & Hs & Hg).
  rewrite Hk in Hs. now injection Hs as ->.
Qed.

(** [_keyphrases2suggestions] returns scores between 0 and 1 or raises
    [ZeroDivisionError]. *)
Lemma rounded_keyphrases2suggestions_grade (index : dict (list string))
    (keyphrases : list (string * Q)) :
  match Rounded._keyphrases2suggestions rnd normalize_word index
          keyphrases with
  | Ok combined => Forall (fun us => Rounded.grade rnd (snd us)) combined
  | Raise e => e = ZeroDivisionError
  end.
Proof.
  destruct (rounded_match_keyphrases_fed index keyphrases)
    as (fed & nm & Hm & Hf).
  unfold Rounded._keyphrases2suggestions. rewrite Hm. cbn [bind].
  apply (rounded_combine_loop_grade fed []).
  - exact (rounded_fed_grade keyphrases fed Hf).
  - constructor.
Qed.

End RoundedMatching.
End Combination.
End RoundedScores.

(** ** Rounding to binary64 *)

Section Binary64Rounding.
Local Open Scope Q_scope.

(** *** Powers of two *)

Lemma pow2_pos (k : Z) : 0 < 2 ^ k.
Proof. apply Qpower_0_lt. reflexivity. Qed.

Lemma pow2_add (a b : Z) : 2 ^ (a + b) == 2 ^ a * 2 ^ b.
Proof. apply Qpower_plus. discriminate. Qed.

Lemma pow2_le (a b : Z) : (a <= b)%Z -> 2 ^ a <= 2 ^ b.
Proof. intros H. apply Qpower_le_compat_l; [exact H | discriminate]. Qed.

Lemma pow2_lt_inv (a b : Z) : 2 ^ a < 2 ^ b -> (a < b)%Z.
Proof. intros H. apply (Qpower_lt_compat_l_inv 2); [exact H | reflexivity]. Qed.

Lemma pow2_inject (n : Z) : (0 <= n)%Z -> inject_Z (2 ^ n) == 2 ^ n.
Proof. intros H. now rewrite (Zpower_Qpower 2 n H). Qed.

Lemma pow2_div (x : Q) (e : Z) : x / 2 ^ e * 2 ^ e == x.
Proof. field. pose proof (pow2_pos e). lra. Qed.

(** *** The size of a positive number *)

Lemma mag_spec (x : Q) : 0 < x -> 2 ^ Rounded.mag x <= x /\ x < 2 ^ (Rounded.mag x + 1).
Proof.
  intros Hx. destruct x as [p q].
  assert (Hp : (0 < p)%Z) by (unfold Qlt in Hx; simpl in Hx; lia).
  unfold Rounded.mag. cbn [Qnum Qden].
  set (a := Z.log2 p). set (b := Z.log2 (Z.pos q)).
  destruct (Z.log2_spec p Hp) as [Ha1 Ha2]. fold a in Ha1, Ha2.
  destruct (Z.log2_spec (Z.pos q) eq_refl) as [Hb1 Hb2]. fold b in Hb1, Hb2.
  assert (Ha0 : (0 <= a)%Z) by apply Z.log2_nonneg.
  assert (Hb0 : (0 <= b)%Z) by apply Z.log2_nonneg.
  assert (Hx' : p # q == inject_Z p / inject_Z (Z.pos q)) by apply Qmake_Qdiv.
  assert (Hq : 0 < inject_Z (Z.pos q)) by reflexivity.
  assert (P1 : 2 ^ a <= inject_Z p).
  { rewrite <- (pow2_inject a Ha0). now rewrite <- Zle_Qle. }
  assert (P2 : inject_Z p < 2 ^ (a + 1)).
  { rewrite <- (pow2_inject (a + 1)) by lia. now rewrite <- Zlt_Qlt. }
  assert (Q1 : 2 ^ b <= inject_Z (Z.pos q)).
  { rewrite <- (pow2_inject b Hb0). now rewrite <- Zle_Qle. }
  assert (Q2 : inject_Z (Z.pos q) < 2 ^ (b + 1)).
  { rewrite <- (pow2_inject (b + 1)) by lia. now rewrite <- Zlt_Qlt. }
  destruct (Qle_bool (2 ^ (a - b)) (p # q)) eqn:E.
  - apply Qle_bool_iff in E. split; [exact E|].
    rewrite Hx'. apply Qlt_shift_div_r; [exact Hq|].
    apply Qlt_le_trans with (2 ^ (a + 1)); [exact P2|].
    replace (a + 1)%Z with ((a - b + 1) + b)%Z by lia. rewrite pow2_add.
    apply Qmult_le_l; [apply pow2_pos | exact Q1].
  - assert (E' : p # q < 2 ^ (a - b)).
    { apply Qnot_le_lt. intros H. apply Qle_bool_iff in H. congruence. }
    split.
    + rewrite Hx'. apply Qle_shift_div_l; [exact Hq|].
      apply Qle_trans with (2 ^ a); [|exact P1].
      replace a with ((a - b - 1) + (b + 1))%Z at 2 by lia. rewrite pow2_add.
      apply Qmult_le_l; [apply pow2_pos | now apply Qlt_le_weak].
    + now replace (a - b - 1 + 1)%Z with (a - b)%Z by lia.
Qed.

Lemma mag_unique (x : Q) (k : Z) :
  2 ^ k <= x -> x < 2 ^ (k + 1) -> Rounded.mag x = k.
Proof.
  intros H1 H2.
  assert (Hx : 0 < x) by (pose proof (pow2_pos k); lra).
  destruct (mag_spec x Hx) as [M1 M2].
  assert (A : (k < Rounded.mag x + 1)%Z) by (apply pow2_lt_inv; lra).
  assert (B : (Rounded.mag x < k + 1)%Z) by (apply pow2_lt_inv; lra).
  lia.
Qed.

Lemma mag_le (x y : Q) : 0 < x -> x <= y -> (Rounded.mag x <= Rounded.mag y)%Z.
Proof.
  intros Hx Hxy.
  destruct (mag_spec x Hx) as [M1 _].
  destruct (mag_spec y) as [_ M2]; [lra|].
  assert (A : (Rounded.mag x < Rounded.mag y + 1)%Z) by (apply pow2_lt_inv; lra).
  lia.
Qed.

(** *** Rounding to an integer *)

Lemma nearest_even_bounds (x : Q) :
  (Qfloor x <= Rounded.nearest_even x <= Qfloor x + 1)%Z.
Proof.
  unfold Rounded.nearest_even.
  destruct (x - inject_Z (Qfloor x) ?= 1 # 2); [|lia|lia].
  destruct (Z.even (Qfloor x)); lia.
Qed.

Lemma nearest_even_monotone (x y : Q) :
  x <= y -> (Rounded.nearest_even x <= Rounded.nearest_even y)%Z.
Proof.
  intros H.
  pose proof (Qfloor_resp_le x y H) as Hf.
  pose proof (nearest_even_bounds x) as Bx.
  pose proof (nearest_even_bounds y) as By.
  destruct (Z.eq_dec (Qfloor x) (Qfloor y)) as [E|E]; [|lia].
  unfold Rounded.nearest_even in *. rewrite <- E in *.
  destruct (x - inject_Z (Qfloor x) ?= 1 # 2) eqn:Cx;
    destruct (y - inject_Z (Qfloor x) ?= 1 # 2) eqn:Cy;
    try (destruct (Z.even (Qfloor x)); lia); try lia; exfalso.
  - apply Qeq_alt in Cx. apply Qlt_alt in Cy. lra.
  - apply Qgt_alt in Cx. apply Qeq_alt in Cy. lra.
  - apply Qgt_alt in Cx. apply Qlt_alt in Cy. lra.
Qed.

Lemma nearest_even_integer (z : Z) : Rounded.nearest_even (inject_Z z) = z.
Proof.
  unfold Rounded.nearest_even. rewrite Qfloor_Z.
  assert (E : (inject_Z z - inject_Z z ?= 1 # 2) = Lt).
  { rewrite <- Qlt_alt. generalize (inject_Z z); intros q. lra. }
  now rewrite E.
Qed.

Lemma nearest_even_proper (x y : Q) :
  x == y -> Rounded.nearest_even x = Rounded.nearest_even y.
Proof.
  intros E. apply Z.le_antisymm; apply nearest_even_monotone; lra.
Qed.

Lemma nearest_even_below (x : Q) (z : Z) :
  x <= inject_Z z -> (Rounded.nearest_even x <= z)%Z.
Proof.
  intros H. rewrite <- (nearest_even_integer z). now apply nearest_even_monotone.
Qed.

Lemma nearest_even_above (x : Q) (z : Z) :
  inject_Z z <= x -> (z <= Rounded.nearest_even x)%Z.
Proof.
  intros H. rewrite <- (nearest_even_integer z) at 1.
  now apply nearest_even_monotone.
Qed.

(** *** Rounding a positive number *)

Lemma last_place_le (x y : Q) :
  0 < x -> x <= y -> (Rounded.last_place x <= Rounded.last_place y)%Z.
Proof.
  intros Hx Hxy. pose proof (mag_le x y Hx Hxy). unfold Rounded.last_place. lia.
Qed.

Lemma round_nonneg (x : Q) : 0 <= x -> 0 <= Rounded.round_positive x.
Proof.
  intros Hx. unfold Rounded.round_positive.
  pose proof (pow2_pos (Rounded.last_place x)) as Hp.
  apply Qmult_le_0_compat; [|lra].
  change 0 with (inject_Z 0). rewrite <- Zle_Qle.
  apply nearest_even_above. change (inject_Z 0) with 0.
  apply Qle_shift_div_l; lra.
Qed.

Lemma round_below_power (x : Q) (k : Z) :
  x <= 2 ^ k -> (Rounded.last_place x <= k)%Z ->
  Rounded.round_positive x <= 2 ^ k.
Proof.
  intros Hx Hk. unfold Rounded.round_positive.
  set (e := Rounded.last_place x) in *.
  pose proof (pow2_pos e) as He.
  assert (Hn : (Rounded.nearest_even (x / 2 ^ e) <= 2 ^ (k - e))%Z).
  { apply nearest_even_below. rewrite pow2_inject by lia.
    apply Qle_shift_div_r; [exact He|].
    rewrite <- pow2_add. now replace (k - e + e)%Z with k by lia. }
  rewrite Zle_Qle, pow2_inject in Hn by lia.
  apply Qle_trans with (2 ^ (k - e) * 2 ^ e).
  - apply Qmult_le_compat_r; [exact Hn | lra].
  - rewrite <- pow2_add. replace (k - e + e)%Z with k by lia. apply Qle_refl.
Qed.

Lemma round_above_power (x : Q) (k : Z) :
  2 ^ k <= x -> (Rounded.last_place x <= k)%Z ->
  2 ^ k <= Rounded.round_positive x.
Proof.
  intros Hx Hk. unfold Rounded.round_positive.
  set (e := Rounded.last_place x) in *.
  pose proof (pow2_pos e) as He.
  assert (Hn : (2 ^ (k - e) <= Rounded.nearest_even (x / 2 ^ e))%Z).
  { apply nearest_even_above. rewrite pow2_inject by lia.
    apply Qle_shift_div_l; [exact He|].
    rewrite <- pow2_add. now replace (k - e + e)%Z with k by lia. }
  rewrite Zle_Qle, pow2_inject in Hn by lia.
  apply Qle_trans with (2 ^ (k - e) * 2 ^ e).
  - rewrite <- pow2_add. replace (k - e + e)%Z with k by lia. apply Qle_refl.
  - apply Qmult_le_compat_r; [exact Hn | lra].
Qed.

Lemma round_monotone (x y : Q) :
  0 < x -> x <= y ->
  Rounded.round_positive x <= Rounded.round_positive y.
Proof.
  intros Hx Hxy.
  assert (Hy : 0 < y) by lra.
  pose proof (last_place_le x y Hx Hxy) as Hle.
  destruct (Z.eq_dec (Rounded.last_place x) (Rounded.last_place y)) as [E|E].
  - unfold Rounded.round_positive. rewrite E.
    pose proof (pow2_pos (Rounded.last_place y)) as He.
    apply Qmult_le_compat_r; [|lra].
    rewrite <- Zle_Qle. apply nearest_even_monotone.
    apply Qle_shift_div_l; [exact He|]. now rewrite pow2_div.
  - destruct (mag_spec x Hx) as [_ Mx]. destruct (mag_spec y Hy) as [My _].
    pose proof (mag_le x y Hx Hxy) as Hm.
    unfold Rounded.last_place in Hle, E.
    assert (Hk : (Rounded.mag x + 1 <= Rounded.mag y)%Z) by lia.
    apply Qle_trans with (2 ^ Rounded.mag y).
    + apply round_below_power.
      * pose proof (pow2_le _ _ Hk). lra.
      * unfold Rounded.last_place. lia.
    + apply round_above_power; [exact My|]. unfold Rounded.last_place. lia.
Qed.

Lemma round_proper (x y : Q) :
  0 < x -> x == y ->
  Rounded.round_positive x == Rounded.round_positive y.
Proof.
  intros Hx E. apply Qle_antisym; apply round_monotone; lra.
Qed.

(** A number with at most 53 digits above the least exponent is left as
    it is. *)
Lemma round_representable (n e : Z) :
  (0 < n < 2 ^ 53)%Z -> (-1074 <= e)%Z -> (e = -1074 \/ 2 ^ 52 <= n)%Z ->
  Rounded.round_positive (inject_Z n * 2 ^ e) == inject_Z n * 2 ^ e.
Proof.
  intros [Hn0 Hn1] He Hnorm.
  set (v := inject_Z n * 2 ^ e).
  pose proof (pow2_pos e) as Hpe.
  destruct (Z.log2_spec n Hn0) as [L1 L2].
  assert (L0 : (0 <= Z.log2 n)%Z) by apply Z.log2_nonneg.
  assert (Hm : Rounded.mag v = (Z.log2 n + e)%Z).
  { apply mag_unique; unfold v.
    - rewrite pow2_add. apply Qmult_le_compat_r; [|lra].
      rewrite <- pow2_inject by lia. now rewrite <- Zle_Qle.
    - replace (Z.log2 n + e + 1)%Z with (Z.succ (Z.log2 n) + e)%Z by lia.
      rewrite pow2_add. apply Qmult_lt_compat_r; [exact Hpe|].
      rewrite <- pow2_inject by lia. now rewrite <- Zlt_Qlt. }
  assert (Hlog : (Z.log2 n < 53)%Z) by (apply Z.log2_lt_pow2; lia).
  assert (Hl : Rounded.last_place v = e).
  { unfold Rounded.last_place. rewrite Hm. destruct Hnorm as [->|Hnorm]; [lia|].
    assert (52 <= Z.log2 n)%Z by (apply Z.log2_le_pow2; lia). lia. }
  unfold Rounded.round_positive. rewrite Hl.
  rewrite (nearest_even_proper (v / 2 ^ e) (inject_Z n)).
  - now rewrite nearest_even_integer.
  - unfold v. field. lra.
Qed.

Lemma round_digits (x : Q) :
  0 < x ->
  let e := Rounded.last_place x in
  let n := Rounded.nearest_even (x / 2 ^ e) in
  (0 <= n <= 2 ^ 53)%Z /\ (e = -1074 \/ 2 ^ 52 <= n)%Z.
Proof.
  intros Hx e n.
  pose proof (pow2_pos e) as Hpe.
  destruct (mag_spec x Hx) as [M1 M2].
  assert (He : (Rounded.mag x - 52 <= e)%Z) by (unfold e, Rounded.last_place; lia).
  split; [split|].
  - apply nearest_even_above. change (inject_Z 0) with 0.
    apply Qle_shift_div_l; lra.
  - apply nearest_even_below. rewrite pow2_inject by lia.
    apply Qle_shift_div_r; [exact Hpe|]. rewrite <- pow2_add.
    assert (2 ^ (Rounded.mag x + 1) <= 2 ^ (53 + e)) by (apply pow2_le; lia).
    lra.
  - destruct (Z.eq_dec e (-1074)) as [E|E]; [now left | right].
    assert (E' : e = (Rounded.mag x - 52)%Z)
      by (unfold e, Rounded.last_place in *; lia).
    apply nearest_even_above. rewrite pow2_inject by lia.
    apply Qle_shift_div_l; [exact Hpe|]. rewrite <- pow2_add.
    replace (52 + e)%Z with (Rounded.mag x) by lia. exact M1.
Qed.

Lemma round_fixed (x : Q) :
  0 < x -> 0 < Rounded.round_positive x ->
  Rounded.round_positive (Rounded.round_positive x)
  == Rounded.round_positive x.
Proof.
  intros Hx Hr.
  destruct (round_digits x Hx) as [[Hn0 Hn1] Hnorm]. cbv zeta in *.
  unfold Rounded.round_positive at 2 3. unfold Rounded.round_positive in Hr.
  set (e := Rounded.last_place x) in *.
  set (n := Rounded.nearest_even (x / 2 ^ e)) in *.
  pose proof (pow2_pos e) as Hpe.
  assert (He : (-1074 <= e)%Z) by (unfold e, Rounded.last_place; lia).
  assert (Hn : (0 < n)%Z).
  { destruct (Z.eq_dec n 0) as [E|E]; [|lia].
    rewrite E in Hr. change (inject_Z 0) with 0 in Hr. lra. }
  destruct (Z.eq_dec n (2 ^ 53)) as [E|E].
  - assert (Ev : inject_Z n * 2 ^ e == inject_Z (2 ^ 52) * 2 ^ (e + 1)).
    { rewrite E, pow2_add. change (inject_Z (2 ^ 53)) with (inject_Z (2 ^ 52) * 2).
      change (2 ^ 1) with 2. ring. }
    rewrite (round_proper _ _ Hr Ev). rewrite Ev.
    apply round_representable; lia.
  - apply round_representable; lia.
Qed.

(** *** Rounding a number *)

Lemma binary64_positive (x : Q) :
  0 < x -> Rounded.binary64 x = Rounded.round_positive x.
Proof.
  intros H. unfold Rounded.binary64.
  assert (E : (x ?= 0) = Gt) by (rewrite <- Qgt_alt; exact H). now rewrite E.
Qed.

Lemma binary64_negative (x : Q) :
  x < 0 -> Rounded.binary64 x = - Rounded.round_positive (- x).
Proof.
  intros H. unfold Rounded.binary64.
  assert (E : (x ?= 0) = Lt) by (rewrite <- Qlt_alt; exact H). now rewrite E.
Qed.

Lemma binary64_zero (x : Q) : x == 0 -> Rounded.binary64 x = 0.
Proof.
  intros H. unfold Rounded.binary64.
  assert (E : (x ?= 0) = Eq) by (rewrite <- Qeq_alt; exact H). now rewrite E.
Qed.

Lemma binary64_sign (x : Q) :
  (0 <= x -> 0 <= Rounded.binary64 x) /\ (x <= 0 -> Rounded.binary64 x <= 0).
Proof.
  destruct (Q_dec x 0) as [[H|H]|H].
  - rewrite (binary64_negative x H).
    assert (0 <= Rounded.round_positive (- x)) by (apply round_nonneg; lra).
    split; intros; lra.
  - rewrite (binary64_positive x H).
    assert (0 <= Rounded.round_positive x) by (apply round_nonneg; lra).
    split; intros; lra.
  - rewrite (binary64_zero x H). split; intros; apply Qle_refl.
Qed.

Lemma binary64_monotone (x y : Q) :
  x <= y -> Rounded.binary64 x <= Rounded.binary64 y.
Proof.
  intros H.
  destruct (Qlt_le_dec 0 x) as [Hx|Hx].
  - rewrite (binary64_positive x Hx), (binary64_positive y) by lra.
    now apply round_monotone.
  - destruct (Qlt_le_dec y 0) as [Hy|Hy].
    + rewrite (binary64_negative x), (binary64_negative y Hy) by lra.
      assert (Rounded.round_positive (- y) <= Rounded.round_positive (- x))
        by (apply round_monotone; lra).
      lra.
    + apply Qle_trans with 0.
      * now apply binary64_sign.
      * now apply binary64_sign.
Qed.

Lemma binary64_fixed (x : Q) :
  Rounded.binary64 (Rounded.binary64 x) == Rounded.binary64 x.
Proof.
  destruct (Q_dec x 0) as [[H|H]|H].
  - rewrite (binary64_negative x H).
    set (r := Rounded.round_positive (- x)).
    assert (Hr : 0 <= r) by (apply round_nonneg; lra).
    destruct (Qlt_le_dec 0 r) as [Hp|Hz].
    + rewrite (binary64_negative (- r)) by lra.
      assert (E : - - r == r) by ring.
      rewrite (round_proper (- - r) r) by lra.
      unfold r. rewrite round_fixed; [reflexivity | lra | exact Hp].
    + rewrite (binary64_zero (- r)) by lra. lra.
  - rewrite (binary64_positive x H).
    set (r := Rounded.round_positive x).
    assert (Hr : 0 <= r) by (apply round_nonneg; lra).
    destruct (Qlt_le_dec 0 r) as [Hp|Hz].
    + rewrite (binary64_positive r Hp). now apply round_fixed.
    + rewrite (binary64_zero r) by lra. lra.
  - rewrite (binary64_zero x H). reflexivity.
Qed.

Lemma binary64_below_one (x : Q) :
  Rounded.binary64 x == x -> x < 1 -> x <= 1 - 2 ^ (-53).
Proof.
  intros Hfix Hlt.
  assert (Hu : 2 ^ (-53) <= 1 # 2).
  { pose proof (pow2_le (-53) (-1) ltac:(lia)) as H.
    change (2 ^ (-1)) with (1 # 2) in H. exact H. }
  destruct (Qlt_le_dec 0 x) as [Hx|Hx]; [|lra].
  destruct (mag_spec x Hx) as [M1 M2].
  assert (Hm : (Rounded.mag x < 0)%Z).
  { apply pow2_lt_inv. change (2 ^ 0) with 1. lra. }
  destruct (Z.eq_dec (Rounded.mag x) (-1)) as [E|E].
  - rewrite (binary64_positive x Hx) in Hfix.
    unfold Rounded.round_positive in Hfix.
    assert (El : Rounded.last_place x = (-53)%Z)
      by (unfold Rounded.last_place; lia).
    rewrite El in Hfix.
    set (n := Rounded.nearest_even (x / 2 ^ (-53))) in *.
    pose proof (pow2_pos (-53)) as Hp.
    assert (Hn : (n < 2 ^ 53)%Z).
    { rewrite Zlt_Qlt, pow2_inject by lia.
      apply Qmult_lt_r with (2 ^ (-53)); [exact Hp|].
      rewrite <- pow2_add. change (2 ^ (53 + -53)) with 1. lra. }
    assert (Hn' : inject_Z n <= 2 ^ 53 - 1).
    { rewrite <- pow2_inject by lia.
      setoid_replace (inject_Z (2 ^ 53) - 1) with (inject_Z (2 ^ 53 - 1))
        by reflexivity.
      rewrite <- Zle_Qle. lia. }
    rewrite <- Hfix.
    apply Qle_trans with ((2 ^ 53 - 1) * 2 ^ (-53)).
    + apply Qmult_le_compat_r; [exact Hn' | lra].
    + setoid_replace ((2 ^ 53 - 1) * 2 ^ (-53))
        with (2 ^ 53 * 2 ^ (-53) - 2 ^ (-53)) by ring.
      rewrite <- pow2_add. change (2 ^ (53 + -53)) with 1. apply Qle_refl.
  - assert (2 ^ (Rounded.mag x + 1) <= 2 ^ (-1)) by (apply pow2_le; lia).
    change (2 ^ (-1)) with (1 # 2) in *. lra.
Qed.

Lemma binary64_rounding : Rounded.rounding Rounded.binary64.
Proof.
  split.
  - exact binary64_monotone.
  - exact binary64_fixed.
  - reflexivity.
  - vm_compute. reflexivity.
Qed.

Lemma binary64_spaced : Rounded.spaced Rounded.binary64 (2 ^ (-53)).
Proof.
  split.
  - apply pow2_pos.
  - vm_compute. reflexivity.
  - exact binary64_below_one.
  - vm_compute. reflexivity.
Qed.

End Binary64Rounding.

(** *** The two models of the score functions

    On these scores the functions on binary64 floats and the functions
    that round with [Rounded.binary64] have the same outcome: the raw
    scores and scores of the examples, the largest finite float, scores
    whose product underflows, and the scores 1 and 0. *)
Lemma transform_score_models_agree :
  forallb transform_agrees
    [(-0.5)%float; 0%float; 1%float; 3%float;
     0x1.999999999999ap-4%float; 0x1.999999999999bp-4%float;
     0x1p-1074%float; 0x1p-60%float; 0x1p700%float;
     0x1.fffffffffffffp1023%float] = true.
Proof. vm_compute. reflexivity. Qed.

Lemma conflate_scores_models_agree :
  forallb conflate_agrees
    [(0.5, 0.5); (0.75, 0.75);
     (0x1.999999999999ap-2, 0x1.3333333333333p-2);
     (0x1.999999999999ap-2, 0.5);
     (0x1.1eb851eb851ecp-3, 0x1.ae147ae147ae1p-1);
     (0x1.d1745d1745d17p-1, 0x1.1eb851eb851ecp-3);
     (0x1.fffffffffffffp-1, 0x1.fffffffffffffp-1);
     (0x1p-700, 0x1p-700); (0x1p-1074, 0x1.fffffffffffffp-1);
     (0x1p-537, 0x1p-538); (1, 0x1p-700); (1, 0); (0, 1); (0, 0);
     (1, 1)]%float = true.
Proof. vm_compute. reflexivity. Qed.

(** *** The score transform *)

(** A raw score that is a finite binary64 number is below [2 ^ 1024]; its
    transform is above 0. *)
Lemma binary64_transform_positive (raw : Q) :
  (raw <= 2 ^ 1024)%Q ->
  exists s, Rounded._transform_score Rounded.binary64 raw = Ok s /\ (0 < s)%Q.
Proof.
  intros Hraw. destruct (Qlt_le_dec raw 0) as [Hneg|Hpos].
  - exists 1%Q. split; [now apply rounded_transform_negative | reflexivity].
  - exists (Rounded.binary64 (1 / Rounded.binary64 (raw + 1))). split.
    + now apply (rounded_transform_nonnegative _ binary64_rounding).
    + assert (H1 : (1 <= Rounded.binary64 (raw + 1))%Q)
        by (apply (rnd_ge_one _ binary64_rounding); lra).
      assert (H2 : (Rounded.binary64 (raw + 1) <= 2 ^ 1024)%Q).
      { apply Qle_trans with (Rounded.binary64 (2 ^ 1024 + 1)).
        - apply binary64_monotone. lra.
        - vm_compute. discriminate. }
      assert (H3 : (2 ^ (-1024) <= 1 / Rounded.binary64 (raw + 1))%Q).
      { apply Qle_shift_div_l; [lra|].
        apply Qle_trans with (2 ^ (-1024) * 2 ^ 1024)%Q.
        - apply Qmult_le_l; [apply pow2_pos | exact H2].
        - rewrite <- pow2_add. discriminate. }
      apply Qlt_le_trans with (Rounded.binary64 (2 ^ (-1024))).
      * vm_compute. reflexivity.
      * now apply binary64_monotone.
Qed.

(** C6, as the code has it: in binary64 arithmetic the transform is 1.0
    for every negative raw score and at 0; from 0 on it returns, without
    raising, the rounded quotient of 1.0 by the rounded sum [raw + 1]; it
    never increases there; every output is a float between 0 and 1, and it
    is above 0 when the raw score is finite. On binary64 floats the
    transform of -0.5, 0, 1 and 3 is 1.0, 1.0, 0.5 and 0.25. *)
Theorem transform_score_rounded :
  (forall raw, (raw < 0)%Q ->
     Rounded._transform_score Rounded.binary64 raw = Ok 1%Q)
  /\ (exists t, Rounded._transform_score Rounded.binary64 0 = Ok t
                /\ (t == 1)%Q)
  /\ (forall raw, (0 <= raw)%Q ->
        Rounded._transform_score Rounded.binary64 raw
        = Ok (Rounded.binary64 (1 / Rounded.binary64 (raw + 1)))%Q)
  /\ (forall x y, (0 <= x)%Q -> (x <= y)%Q ->
        exists a b, Rounded._transform_score Rounded.binary64 x = Ok a
                    /\ Rounded._transform_score Rounded.binary64 y = Ok b
                    /\ (b <= a)%Q)
  /\ (forall raw, exists s,
        Rounded._transform_score Rounded.binary64 raw = Ok s
        /\ Rounded.grade Rounded.binary64 s)
  /\ (forall raw, (raw <= 2 ^ 1024)%Q ->
        exists s, Rounded._transform_score Rounded.binary64 raw = Ok s
                  /\ (0 < s)%Q)
  /\ Binary64._transform_score (-0.5) = Ok 1%float
  /\ Binary64._transform_score 0 = Ok 1%float
  /\ Binary64._transform_score 1 = Ok 0.5%float
  /\ Binary64._transform_score 3 = Ok 0.25%float.
Proof.
  split; [exact (rounded_transform_negative Rounded.binary64)|].
  split; [exact (rounded_transform_zero _ binary64_rounding)|].
  split; [exact (rounded_transform_nonnegative _ binary64_rounding)|].
  split; [exact (rounded_transform_monotone _ binary64_rounding)|].
  split; [exact (rounded_transform_grade _ binary64_rounding)|].
  split; [exact binary64_transform_positive|].
  repeat split; vm_compute; reflexivity.
Qed.

Lemma transform_score_rounded_witness :
  Rounded._transform_score Rounded.binary64 (-1 # 3) = Ok 1%Q
  /\ Rounded._transform_score Rounded.binary64 (3 # 2)
     = Ok (Rounded.binary64 (1 / Rounded.binary64 ((3 # 2) + 1)))%Q
  /\ (exists a b,
        Rounded._transform_score Rounded.binary64 (1 # 10) = Ok a
        /\ Rounded._transform_score Rounded.binary64 (3 # 2) = Ok b
        /\ (b <= a)%Q)
  /\ exists s, Rounded._transform_score Rounded.binary64 3 = Ok s
               /\ (0 < s)%Q.
Proof.
  pose proof transform_score_rounded as (Hneg & _ & Hpos & Hmon & _ & Hp & _).
  split; [apply Hneg; reflexivity|].
  split; [apply Hpos; discriminate|].
  split; [apply Hmon; discriminate | apply Hp; discriminate].
Defined.

(** C6, as the specification words it, fails on binary64 floats: 0.1 and
    the next float above it are two raw scores from 0 on with the same
    transform, so the transform is not strictly decreasing; and the
    transform of the raw score infinity is 0.0, which is not in (0, 1]. *)
Lemma transform_score_ties_counterexample :
  PrimFloat.leb 0 0x1.999999999999ap-4 = true
  /\ PrimFloat.ltb 0x1.999999999999ap-4 0x1.999999999999bp-4 = true
  /\ Binary64._transform_score 0x1.999999999999ap-4
     = Ok 0x1.d1745d1745d17p-1%float
  /\ Binary64._transform_score 0x1.999999999999bp-4
     = Ok 0x1.d1745d1745d17p-1%float
  /\ PrimFloat.leb 0 infinity = true
  /\ Binary64._transform_score infinity = Ok 0%float.
Proof. repeat split; vm_compute; reflexivity. Qed.

(** *** The matching pipeline *)




(** ** The index builder *)

Lemma set_add_Forall (P : string -> Prop) (s : list string) (x : string) :
  Forall P s -> P x -> Forall P (set_add s x).
Proof.
  intros Hs Hx. unfold set_add. destruct (set_mem x s); [exact Hs|].
  apply Forall_app. split; [exact Hs | now constructor].
Qed.

Section IndexBuilder.
Variable normalize_word : string -> string.
Variable g : Graph.
Variable p : params.

Lemma add_labels_live (labels : list node) :
  forall (index : dict (list string)) (uri : string),
    Forall (live_entry g) index -> live g uri ->
    Forall (live_entry g) (add_labels normalize_word p index uri labels).
Proof.
  induction labels as [|l rest IH]; intros index uri Hi Hu; [exact Hi|].
  cbn [add_labels]. apply IH; [|exact Hu].
  apply dict_set_Forall; [exact Hi|].
  unfold live_entry. cbn [snd]. apply set_add_Forall; [|exact Hu].
  destruct (dict_get index (_normalize_label normalize_word p l)) as [s|] eqn:E.
  - apply dict_get_In in E. rewrite Forall_forall in Hi. exact (Hi _ E).
  - constructor.
Qed.

Lemma index_concepts_live (concepts : list string) :
  forall index built : dict (list string),
    (forall c, In c concepts ->
               In c (subjects g RDF_type (URIRef SKOS_Concept))) ->
    Forall (live_entry g) index ->
    index_concepts normalize_word g p concepts index = Ok built ->
    Forall (live_entry g) built.
Proof.
  induction concepts as [|c rest IH]; intros index built Hsub Hi Hb.
  - cbn [index_concepts] in Hb. now injection Hb as <-.
  - cbn [index_concepts] in Hb.
    assert (Hrest : forall c', In c' rest ->
              In c' (subjects g RDF_type (URIRef SKOS_Concept)))
      by (intros c' Hc'; apply Hsub; now right).
    destruct (graph_contains g c OWL_deprecated Literal_True) eqn:Edep.
    + exact (IH _ _ Hrest Hi Hb).
    + destruct (label_types p) as [lts|e]; [|discriminate].
      cbn [bind] in Hb.
      destruct (_get_concept_labels g p c lts) as [labels|e]; [|discriminate].
      cbn [bind] in Hb.
      apply (IH _ _ Hrest) in Hb; [exact Hb|].
      apply add_labels_live; [exact Hi|].
      split; [exact Edep | apply Hsub; now left].
Qed.

(** C8: an index the builder returns has no entry under the empty key,
    and every URI in an entry is that of a concept of the graph that does
    not carry the deprecation mark. *)
Theorem create_index_excludes (index : dict (list string)) :
  _create_index normalize_word g p = Ok index ->
  ~ In "" (keys index)
  /\ (forall key uris uri,
        In (key, uris) index -> In uri uris ->
        deprecated g uri = false
        /\ In uri (subjects g RDF_type (URIRef SKOS_Concept))).
Proof.
  unfold _create_index. intros H.
  destruct (index_concepts normalize_word g p
              (subjects g RDF_type (URIRef SKOS_Concept)) [])
    as [built|e] eqn:E; [|discriminate].
  cbn [bind] in H. injection H as <-. split.
  - apply dict_pop_gone.
  - intros key uris uri Hin Hu.
    assert (Hall : Forall (live_entry g) (dict_pop built "")).
    { apply dict_pop_Forall.
      apply (index_concepts_live _ _ _ (fun c H => H) (Forall_nil _) E). }
    rewrite Forall_forall in Hall. specialize (Hall _ Hin).
    unfold live_entry in Hall. rewrite Forall_forall in Hall.
    exact (Hall _ Hu).
Qed.
End IndexBuilder.

Lemma create_index_excludes_witness :
  _create_index (fun w => w) example_graph example_params = Ok example_index
  /\ ~ In "" (keys example_index)
  /\ (forall key uris uri,
        In (key, uris) example_index -> In uri uris ->
        deprecated example_graph uri = false
        /\ In uri (subjects example_graph RDF_type (URIRef SKOS_Concept))).
Proof.
  split; [reflexivity|].
  exact (create_index_excludes (fun w => w) example_graph example_params
           example_index eq_refl).
Defined.

(** ** Splitting and stripping *)

Lemma fields_all_not (p : ascii -> bool) (s : string) :
  all (fun c => negb (p c)) s = true -> fields p s = [s].
Proof.
  induction s as [|c s IH]; [reflexivity|].
  simpl. intros H. apply andb_true_iff in H as [Hc Hs].
  apply negb_true_iff in Hc. now rewrite Hc, (IH Hs).
Qed.

Lemma fields_app_sep (p : ascii -> bool) (a b : string) (c : ascii) :
  all (fun c => negb (p c)) a = true -> p c = true ->
  fields p (a ++ String c b) = a :: fields p b.
Proof.
  intros Ha Hc. induction a as [|x a IH]; simpl.
  - now rewrite Hc.
  - simpl in Ha. apply andb_true_iff in Ha as [Hx Ha].
    apply negb_true_iff in Hx. now rewrite Hx, (IH Ha).
Qed.

Lemma append_empty (a b : string) : (a ++ b)%string = EmptyString -> b = EmptyString.
Proof. destruct a; simpl; [tauto | discriminate]. Qed.

Lemma rstrip_app_fixed (a b : string) :
  rstrip b = b -> b <> EmptyString -> rstrip (a ++ b) = (a ++ b)%string.
Proof.
  intros Hb Hne. induction a as [|c a IH]; [exact Hb|].
  simpl. rewrite IH.
  destruct (a ++ b)%string eqn:E; [|reflexivity].
  now apply append_empty in E.
Qed.

Lemma rstrip_nospace (s : string) :
  all (fun c => negb (isspace c)) s = true -> rstrip s = s.
Proof.
  induction s as [|c s IH]; [reflexivity|].
  simpl. intros H. apply andb_true_iff in H as [Hc Hs].
  rewrite (IH Hs). apply negb_true_iff in Hc. rewrite Hc.
  now destruct s.
Qed.

Lemma rstrip_space (w : string) : all isspace w = true -> rstrip w = EmptyString.
Proof.
  induction w as [|c w IH]; [reflexivity|].
  simpl. intros H. apply andb_true_iff in H as [Hc Hw].
  now rewrite (IH Hw), Hc.
Qed.

Lemma rstrip_app_space (a w : string) :
  all isspace w = true -> rstrip (a ++ w) = rstrip a.
Proof.
  intros Hw. induction a as [|c a IH]; simpl.
  - now apply rstrip_space.
  - now rewrite IH.
Qed.

Lemma lstrip_starts_nonspace (a b : string) :
  starts_nonspace a = true -> lstrip (a ++ b) = (a ++ b)%string.
Proof.
  destruct a as [|c a]; [discriminate|].
  simpl. intros H. apply negb_true_iff in H. now rewrite H.
Qed.

Lemma starts_nonspace_app (a b : string) :
  starts_nonspace a = true -> starts_nonspace (a ++ b) = true.
Proof. now destruct a. Qed.

(** *** Joined URIs *)

Lemma join_cons (sep x y : string) (l : list string) :
  join sep (x :: y :: l) = (x ++ sep ++ join sep (y :: l))%string.
Proof. reflexivity. Qed.

Lemma all_join (r : ascii -> bool) (sep : string) (l : list string) :
  all r sep = true -> forallb (all r) l = true -> all r (join sep l) = true.
Proof.
  intros Hsep. induction l as [|x [|y l] IH]; intros H.
  - reflexivity.
  - simpl in *. now apply andb_true_iff in H as [H _].
  - rewrite join_cons, !all_app.
    cbn [forallb] in H. apply andb_true_iff in H as [Hx H].
    now rewrite Hx, Hsep, (IH H).
Qed.

Lemma is_token_nonempty (u : string) : is_token u = true -> u <> EmptyString.
Proof. now destruct u. Qed.

Lemma is_token_nospace (u : string) :
  is_token u = true -> all (fun c => negb (isspace c)) u = true.
Proof. unfold is_token. intros H. now apply andb_true_iff in H as [_ H]. Qed.

Lemma join_nonempty (sep u : string) (l : list string) :
  u <> EmptyString -> join sep (u :: l) <> EmptyString.
Proof.
  intros Hu. destruct l as [|y l]; [exact Hu|].
  rewrite join_cons. destruct u; [congruence | discriminate].
Qed.

Lemma rstrip_join (uris : list string) :
  forallb is_token uris = true -> rstrip (join " " uris) = join " " uris.
Proof.
  induction uris as [|u [|v l] IH]; intros H.
  - reflexivity.
  - simpl in *. apply andb_true_iff in H as [H _].
    now apply rstrip_nospace, is_token_nospace.
  - rewrite join_cons, <- append_assoc.
    cbn [forallb] in H. apply andb_true_iff in H as [_ H].
    apply rstrip_app_fixed; [now apply IH|].
    cbn [forallb] in H. apply andb_true_iff in H as [Hv _].
    now apply join_nonempty, is_token_nonempty.
Qed.

Lemma fields_join (uris : list string) :
  uris <> [] -> forallb is_token uris = true ->
  fields isspace (join " " uris) = uris.
Proof.
  induction uris as [|u [|v l] IH]; intros Hne H.
  - congruence.
  - simpl in *. apply andb_true_iff in H as [H _].
    now apply fields_all_not, is_token_nospace.
  - rewrite join_cons. cbn [forallb] in H.
    apply andb_true_iff in H as [Hu H].
    change (" " ++ join " " (v :: l))%string
      with (String " " (join " " (v :: l))).
    rewrite fields_app_sep;
      [| now apply is_token_nospace | reflexivity].
    now rewrite IH.
Qed.

Lemma split_join (uris : list string) :
  uris <> [] -> forallb is_token uris = true -> split (join " " uris) = uris.
Proof.
  intros Hne H. unfold split. rewrite (fields_join _ Hne H).
  clear Hne. induction uris as [|u l IH]; [reflexivity|].
  cbn [forallb] in H. apply andb_true_iff in H as [Hu H].
  cbn [filter]. destruct u; [discriminate|]. cbn. now rewrite (IH H).
Qed.

(** ** The index file *)

Lemma readlines_line (l rest : string) :
  all (fun c => negb (line_break c)) l = true ->
  readlines (l ++ String LF rest) = (l ++ String LF "")%string :: readlines rest.
Proof.
  induction l as [|c l IH]; intros H; [reflexivity|].
  simpl in H. apply andb_true_iff in H as [Hc Hl].
  unfold line_break in Hc. apply negb_true_iff, orb_false_iff in Hc as [Hlf Hcr].
  change (readlines (String c l ++ String LF rest))
    with (if is_char LF c then String LF "" :: readlines (l ++ String LF rest)
          else if is_char CR c then
            String LF "" ::
              match (l ++ String LF rest)%string with
              | String c' s'' =>
                  if is_char LF c' then readlines s''
                  else readlines (l ++ String LF rest)
              | EmptyString => []
              end
          else match readlines (l ++ String LF rest) with
               | x :: xs => String c x :: xs
               | [] => [String c ""]
               end).
  now rewrite Hlf, Hcr, (IH Hl).
Qed.

Section Entry.
Variable e : string * list string.
Hypothesis He : entry_ok e = true.

Lemma entry_key_ok : key_ok (fst e) = true.
Proof.
  unfold entry_ok in He. apply andb_true_iff in He as [H _].
  now apply andb_true_iff in H as [H _].
Qed.

Lemma entry_uris_nonempty : snd e <> [].
Proof.
  unfold entry_ok in He. apply andb_true_iff in He as [H _].
  apply andb_true_iff in H as [_ H]. now destruct (snd e).
Qed.

Lemma entry_uris_ok : forallb is_token (snd e) = true.
Proof. unfold entry_ok in He. now apply andb_true_iff in He as [_ H]. Qed.

Lemma entry_uris_clean (r : ascii -> bool) :
  (forall c, isspace c = false -> r c = true) -> r " "%char = true ->
  all r (join " " (snd e)) = true.
Proof.
  intros Hr Hsp. apply all_join; [simpl; now rewrite Hsp|].
  pose proof entry_uris_ok as H. rewrite forallb_forall in *.
  intros u Hu. apply (all_impl (fun c => negb (isspace c))).
  - intros c Hc. apply Hr. now apply negb_true_iff.
  - apply is_token_nospace. now apply H.
Qed.

Lemma space_of_tab_or_break (c : ascii) :
  isspace c = false -> is_char TAB c || line_break c = false.
Proof.
  intros H. unfold line_break.
  destruct (is_char TAB c) eqn:E1; [apply is_char_true in E1; now subst|].
  destruct (is_char LF c) eqn:E2; [apply is_char_true in E2; now subst|].
  destruct (is_char CR c) eqn:E3; [apply is_char_true in E3; now subst|].
  reflexivity.
Qed.

Lemma entry_key_clean :
  all (fun c => negb (is_char TAB c || line_break c)) (fst e) = true.
Proof.
  pose proof entry_key_ok as H. unfold key_ok in H.
  now apply andb_true_iff in H as [_ H].
Qed.

Lemma line_of_no_break : all (fun c => negb (line_break c)) (line_of e) = true.
Proof.
  unfold line_of. rewrite all_app. apply andb_true_iff. split.
  - apply (all_impl (fun c => negb (is_char TAB c || line_break c)));
      [|exact entry_key_clean].
    intros c H. apply negb_true_iff, orb_false_iff in H as [_ H].
    now apply negb_true_iff.
  - cbn [all]. apply andb_true_iff. split; [reflexivity|].
    apply entry_uris_clean; [|reflexivity].
    intros c Hc. apply space_of_tab_or_break in Hc.
    apply orb_false_iff in Hc as [_ Hc]. now apply negb_true_iff.
Qed.

Lemma strip_line : strip (line_of e ++ String LF "") = line_of e.
Proof.
  pose proof entry_key_ok as Hk. unfold key_ok in Hk.
  apply andb_true_iff in Hk as [Hs _].
  unfold strip.
  rewrite lstrip_starts_nonspace
    by (unfold line_of; now apply starts_nonspace_app).
  rewrite rstrip_app_space by reflexivity.
  unfold line_of.
  change (fst e ++ String TAB (join " " (snd e)))%string
    with (fst e ++ (String TAB "" ++ join " " (snd e)))%string.
  rewrite <- append_assoc.
  apply rstrip_app_fixed; [apply rstrip_join, entry_uris_ok|].
  pose proof entry_uris_nonempty as Hne. pose proof entry_uris_ok as Hok.
  destruct (snd e) as [|u l]; [congruence|].
  cbn [forallb] in Hok. apply andb_true_iff in Hok as [Hu _].
  now apply join_nonempty, is_token_nonempty.
Qed.

Lemma parse_line_of : parse_line (line_of e ++ String LF "") = Ok e.
Proof.
  unfold parse_line. rewrite strip_line. unfold line_of.
  rewrite fields_app_sep; [| |reflexivity].
  - rewrite fields_all_not.
    + rewrite (split_join _ entry_uris_nonempty entry_uris_ok).
      now destruct e.
    + apply entry_uris_clean; [|reflexivity].
      intros c Hc. apply space_of_tab_or_break in Hc.
      apply orb_false_iff in Hc as [Hc _]. now apply negb_true_iff.
  - apply (all_impl (fun c => negb (is_char TAB c || line_break c)));
      [|exact entry_key_clean].
    intros c H. apply negb_true_iff, orb_false_iff in H as [H _].
    now apply negb_true_iff.
Qed.
End Entry.

Lemma readlines_save (index : dict (list string)) :
  forallb entry_ok index = true ->
  readlines (_save_index index)
  = map (fun e => (line_of e ++ String LF "")%string) index.
Proof.
  induction index as [|[k uris] rest IH]; intros H; [reflexivity|].
  cbn [forallb] in H. apply andb_true_iff in H as [He H].
  change (_save_index ((k, uris) :: rest))
    with (line_of (k, uris) ++ String LF (_save_index rest))%string.
  rewrite (readlines_line _ _ (line_of_no_break _ He)).
  cbn [map]. now rewrite (IH H).
Qed.

Lemma load_lines_fresh (index : dict (list string)) :
  forall loaded : dict (list string),
    forallb entry_ok index = true ->
    NoDup (keys loaded ++ keys index) ->
    load_lines (map (fun e => (line_of e ++ String LF "")%string) index) loaded
    = Ok (loaded ++ index).
Proof.
  induction index as [|[k uris] rest IH]; intros loaded H Hnd.
  - simpl. now rewrite app_nil_r.
  - cbn [forallb] in H. apply andb_true_iff in H as [He H].
    cbn [map load_lines]. rewrite (parse_line_of _ He). cbn [bind].
    rewrite dict_set_fresh.
    + rewrite (IH _ H).
      * now rewrite <- app_assoc.
      * unfold keys in *. rewrite map_app, <- app_assoc. exact Hnd.
    + unfold keys in *. cbn [map fst] in Hnd.
      apply NoDup_remove_2 in Hnd. intros Hin. apply Hnd.
      apply in_or_app. now left.
Qed.

Lemma load_save_exact (index : dict (list string)) :
  NoDup (keys index) -> forallb entry_ok index = true ->
  _load_index (_save_index index) = Ok index.
Proof.
  intros Hnd H. unfold _load_index.
  rewrite (readlines_save _ H). now rewrite (load_lines_fresh _ [] H Hnd).
Qed.

Lemma same_mapping_refl (index : dict (list string)) : same_mapping index index.
Proof.
  intros k. unfold same_set. destruct (dict_get index k); [tauto | exact I].
Qed.

(** C5, as the code has it: an index with distinct keys that are not
    empty, do not begin with whitespace and hold no tab and no line break,
    and whose entries are non-empty sets of non-empty URIs without
    whitespace, is read back from its file as the same mapping from key to
    set of URIs, with the same keys. *)
Theorem load_save_index (index : dict (list string)) :
  NoDup (keys index) -> forallb entry_ok index = true ->
  exists loaded,
    _load_index (_save_index index) = Ok loaded
    /\ same_mapping loaded index
    /\ keys loaded = keys index.
Proof.
  intros Hnd H. exists index.
  split; [now apply load_save_exact|].
  split; [apply same_mapping_refl | reflexivity].
Qed.

Lemma load_save_index_witness :
  NoDup (keys example_index)
  /\ forallb entry_ok example_index = true
  /\ exists loaded,
       _load_index (_save_index example_index) = Ok loaded
       /\ same_mapping loaded example_index
       /\ keys loaded = keys example_index.
Proof.
  assert (Hnd : NoDup (keys example_index)).
  { repeat constructor; simpl; intuition discriminate. }
  split; [exact Hnd|]. split; [reflexivity|].
  exact (load_save_index example_index Hnd eq_refl).
Defined.

(** C5, as the specification words it, fails on indexes whose keys hold
    no tab and no line feed: a key that begins with a space comes back
    without it, so the key is lost; an entry with an empty set of URIs and
    an entry under the empty key make the load raise [ValueError]; a URI
    with a space comes back as two URIs; a key with a carriage return is
    cut in two lines. *)
Lemma load_save_counterexample :
  (all (fun c => negb (is_char TAB c || is_char LF c)) " a" = true
   /\ _load_index (_save_index [(" a", ["u"])]) = Ok [("a", ["u"])]
   /\ ~ same_mapping [("a", ["u"])] [(" a", ["u"])])
  /\ _load_index (_save_index [("a", [])]) = Raise ValueError
  /\ _load_index (_save_index [("", ["u"])]) = Raise ValueError
  /\ (_load_index (_save_index [("a", ["u v"])]) = Ok [("a", ["u"; "v"])]
      /\ ~ same_mapping [("a", ["u"; "v"])] [("a", ["u v"])])
  /\ _load_index (_save_index [("a", [""; "u"])]) = Ok [("a", ["u"])]
  /\ _load_index (_save_index [(String "a" (String CR "b"), ["u"])])
     = Raise ValueError.
Proof.
  split.
  { split; [reflexivity|]. split; [reflexivity|].
    intros H. exact (H " a"). }
  split; [reflexivity|]. split; [reflexivity|].
  split.
  { split; [reflexivity|].
    intros H. specialize (H "a"). simpl in H.
    destruct (proj1 (H "u")) as [E|[]]; [now left | discriminate E]. }
  split; reflexivity.
Qed.

Lemma normalize_label_keyphrase_key_witness :
  _normalize_label (fun w => w) strip_params
    (Literal "Rock Art" (Some "en") None)
  = keyphrase_key (fun w => w) "Rock Art".
Proof.
  exact (proj2 (normalize_label_keyphrase_key (fun w => w) strip_params
                  "Rock Art" (Some "en") None)
               (or_intror eq_refl)).
Defined.

(** ** Keys of a built index *)

Lemma fields_pieces (p : ascii -> bool) (s : string) :
  Forall (fun f => all (fun c => negb (p c)) f = true) (fields p s).
Proof.
  induction s as [|c s IH]; simpl.
  - now repeat constructor.
  - destruct (p c) eqn:Hc.
    + now constructor.
    + destruct (fields p s) as [|f fs]; [now repeat constructor; simpl; rewrite Hc|].
      inversion IH as [|? ? Hf Hfs]; subst.
      constructor; [simpl; now rewrite Hc, Hf | exact Hfs].
Qed.

Lemma split_tokens (s : string) : Forall (fun w => is_token w = true) (split s).
Proof.
  unfold split. pose proof (fields_pieces isspace s) as H.
  induction H as [|f fs Hf Hfs IH]; simpl; [constructor|].
  destruct f as [|c f]; simpl; [exact IH|].
  constructor; [exact Hf | exact IH].
Qed.

Lemma insert_sorted_Forall (P : string -> Prop) (w : string) (ws : list string) :
  P w -> Forall P ws -> Forall P (insert_sorted w ws).
Proof.
  intros Hw Hws. induction Hws as [|v vs Hv Hvs IH]; simpl.
  - now constructor.
  - destruct (String.ltb w v); repeat constructor; assumption.
Qed.

Lemma sorted_Forall (P : string -> Prop) (ws : list string) :
  Forall P ws -> Forall P (sorted ws).
Proof.
  intros H. induction H as [|w ws Hw Hws IH]; simpl; [constructor|].
  now apply insert_sorted_Forall.
Qed.

Lemma join_tokens_key (ws : list string) :
  Forall (fun w => is_token w = true) ws ->
  join " " ws = EmptyString \/ key_ok (join " " ws) = true.
Proof.
  intros H. destruct ws as [|w ws]; [now left|]. right.
  unfold key_ok. apply andb_true_iff. split.
  - inversion H as [|? ? Hw _]; subst.
    assert (Hs : starts_nonspace w = true).
    { destruct w as [|c w]; [discriminate|].
      apply is_token_nospace in Hw. simpl in *.
      now apply andb_true_iff in Hw as [Hw _]. }
    destruct ws as [|v ws]; [exact Hs|].
    rewrite join_cons. now apply starts_nonspace_app.
  - apply all_join; [reflexivity|].
    apply forallb_forall. intros u Hu.
    rewrite Forall_forall in H.
    apply (all_impl (fun c => negb (isspace c)));
      [|apply is_token_nospace; now apply H].
    intros c Hc. apply negb_true_iff in Hc.
    apply negb_true_iff. now apply space_of_tab_or_break.
Qed.

Lemma sort_phrase_key (phrase : string) :
  _sort_phrase phrase = EmptyString \/ key_ok (_sort_phrase phrase) = true.
Proof.
  unfold _sort_phrase. apply join_tokens_key, sorted_Forall, split_tokens.
Qed.

Lemma set_add_nonempty (s : list string) (x : string) : set_add s x <> [].
Proof.
  unfold set_add. destruct (set_mem x s) eqn:E.
  - destruct s; [discriminate | discriminate].
  - now destruct s.
Qed.

Lemma dict_set_keys {V : Type} (d : dict V) (k : string) (v : V) :
  NoDup (keys d) -> NoDup (keys (dict_set d k v)).
Proof.
  intros H. destruct (in_dec string_dec k (keys d)) as [Hin|Hout].
  - replace (keys (dict_set d k v)) with (keys d); [exact H|].
    clear H. induction d as [|[k' v'] d IH]; simpl in *; [tauto|].
    destruct (String.eqb k' k) eqn:E; [reflexivity|].
    apply String.eqb_neq in E. simpl. f_equal. apply IH. tauto.
  - rewrite (dict_set_fresh _ _ _ Hout). unfold keys in *.
    rewrite map_app. simpl.
    apply NoDup_app; [exact H | repeat constructor; simpl; tauto |].
    intros x Hx [<-|[]]. tauto.
Qed.

Lemma dict_pop_keys {V : Type} (d : dict V) (k : string) :
  NoDup (keys d) -> NoDup (keys (dict_pop d k)).
Proof.
  induction d as [|[k' v'] d IH]; simpl; [tauto|].
  intros H. inversion H as [|? ? Hout Hd]; subst.
  destruct (String.eqb k' k); [now apply IH|].
  simpl. constructor; [|now apply IH].
  intros Hin. apply Hout. clear - Hin.
  induction d as [|[k'' v''] d IH]; simpl in *; [tauto|].
  destruct (String.eqb k'' k); simpl in *; tauto.
Qed.

Section BuiltIndex.
Variable normalize_word : string -> string.
Variable g : Graph.
Variable p : params.

Lemma add_labels_built (labels : list node) :
  forall (index : dict (list string)) (uri : string),
    NoDup (keys index) -> Forall (built_entry g) index -> live g uri ->
    NoDup (keys (add_labels normalize_word p index uri labels))
    /\ Forall (built_entry g) (add_labels normalize_word p index uri labels).
Proof.
  induction labels as [|l rest IH]; intros index uri Hnd Hi Hu; [now split|].
  cbn [add_labels]. apply IH; [now apply dict_set_keys | | exact Hu].
  apply dict_set_Forall; [exact Hi|].
  unfold built_entry. cbn [fst snd].
  split; [apply sort_phrase_key|]. split; [apply set_add_nonempty|].
  apply set_add_Forall; [|exact Hu].
  destruct (dict_get index (_normalize_label normalize_word p l)) as [s|] eqn:E.
  - apply dict_get_In in E. rewrite Forall_forall in Hi.
    now destruct (Hi _ E) as (_ & _ & H).
  - constructor.
Qed.

Lemma index_concepts_built (concepts : list string) :
  forall index built : dict (list string),
    (forall c, In c concepts ->
               In c (subjects g RDF_type (URIRef SKOS_Concept))) ->
    NoDup (keys index) -> Forall (built_entry g) index ->
    index_concepts normalize_word g p concepts index = Ok built ->
    NoDup (keys built) /\ Forall (built_entry g) built.
Proof.
  induction concepts as [|c rest IH]; intros index built Hsub Hnd Hi Hb.
  - cbn [index_concepts] in Hb. injection Hb as <-. now split.
  - cbn [index_concepts] in Hb.
    assert (Hrest : forall c', In c' rest ->
              In c' (subjects g RDF_type (URIRef SKOS_Concept)))
      by (intros c' Hc'; apply Hsub; now right).
    destruct (graph_contains g c OWL_deprecated Literal_True) eqn:Edep.
    + exact (IH _ _ Hrest Hnd Hi Hb).
    + destruct (label_types p) as [lts|e]; [|discriminate].
      cbn [bind] in Hb.
      destruct (_get_concept_labels g p c lts) as [labels|e]; [|discriminate].
      cbn [bind] in Hb.
      destruct (add_labels_built labels index c Hnd Hi) as [Hnd' Hi'].
      { split; [exact Edep | apply Hsub; now left]. }
      exact (IH _ _ Hrest Hnd' Hi' Hb).
Qed.

(** The entries of a built index: distinct keys the index file keeps,
    each with a non-empty set of live concepts. *)
Lemma create_index_entries (index : dict (list string)) :
  _create_index normalize_word g p = Ok index ->
  NoDup (keys index)
  /\ Forall (fun e => key_ok (fst e) = true /\ snd e <> []
                      /\ Forall (live g) (snd e)) index.
Proof.
  unfold _create_index. intros H.
  destruct (index_concepts normalize_word g p
              (subjects g RDF_type (URIRef SKOS_Concept)) [])
    as [built|e] eqn:E; [|discriminate].
  cbn [bind] in H. injection H as <-.
  destruct (index_concepts_built _ [] built (fun c H => H)
              (NoDup_nil string) (Forall_nil _) E) as [Hnd Hb].
  split; [now apply dict_pop_keys|].
  pose proof (dict_pop_gone built "") as Hgone.
  pose proof (dict_pop_Forall _ _ "" Hb) as Hall.
  revert Hgone Hall. generalize (dict_pop built ""). intros d Hgone Hall.
  induction Hall as [|[k uris] d [[Hk|Hk] Hrest] Hall IH];
    [constructor | |].
  - exfalso. apply Hgone. simpl in *. now left.
  - constructor; [now split|]. apply IH. intros Hin. apply Hgone. now right.
Qed.

(** A built index whose concepts have URIs that are not empty and hold no
    whitespace is read back from its file with the entries it was saved
    with. *)
Lemma create_index_round_trip (index : dict (list string)) :
  (forall c, In c (subjects g RDF_type (URIRef SKOS_Concept)) ->
             is_token c = true) ->
  _create_index normalize_word g p = Ok index ->
  _load_index (_save_index index) = Ok index.
Proof.
  intros Huris H. destruct (create_index_entries _ H) as [Hnd Hall].
  apply load_save_exact; [exact Hnd|].
  apply forallb_forall. intros [k uris] Hin.
  rewrite Forall_forall in Hall. destruct (Hall _ Hin) as (Hk & Hne & Hl).
  unfold entry_ok. cbn [fst snd] in *. rewrite Hk.
  destruct uris as [|u us]; [congruence|]. cbn [length Nat.eqb negb andb].
  apply forallb_forall. intros c Hc. apply Huris.
  rewrite Forall_forall in Hl. now destruct (Hl _ Hc).
Qed.
End BuiltIndex.

(** ** The builder returns *)

Lemma lookup_kinds_values (f : string -> string) (entries : list string) :
  forall kinds, lookup_kinds f entries = Ok kinds ->
                Forall (fun k => is_label_predicate k = true) kinds.
Proof.
  induction entries as [|lt rest IH]; intros kinds H.
  - injection H as <-. constructor.
  - cbn [lookup_kinds] in H.
    destruct (dict_get mapping (f lt)) as [kind|] eqn:E; [|discriminate].
    destruct (lookup_kinds f rest) as [ks|e]; [|discriminate].
    cbn [bind] in H. injection H as <-.
    constructor; [|now apply IH].
    apply dict_get_In in E. unfold is_label_predicate.
    apply existsb_exists. exists (f lt, kind).
    split; [exact E | apply String.eqb_refl].
Qed.

Lemma label_types_values (p : params) (lts : list string) :
  label_types p = Ok lts -> Forall (fun k => is_label_predicate k = true) lts.
Proof.
  unfold label_types. destruct (label_types_param p) as [lt_param|].
  - destruct (lookup_kinds strip (fields (is_char ",") lt_param))
      as [ks|e] eqn:E.
    + intros [= <-]. exact (lookup_kinds_values _ _ _ E).
    + now destruct e.
  - apply lookup_kinds_values.
Qed.

Lemma keep_language_returns (lang : string) (labels : list node) :
  forallb is_literal labels = true ->
  exists kept, keep_language lang labels = Ok kept.
Proof.
  induction labels as [|l rest IH]; intros H; [now exists []|].
  cbn [forallb] in H. apply andb_true_iff in H as [Hl Hrest].
  destruct (IH Hrest) as (kept & Hk).
  destruct l as [|lexical llang datatype]; [discriminate|].
  cbn [keep_language]. rewrite Hk. cbn [bind]. now eexists.
Qed.

Lemma objects_literal (g : Graph) (concept label_type : string) :
  literal_labels g = true -> is_label_predicate label_type = true ->
  forallb is_literal (objects g concept label_type) = true.
Proof.
  intros Hg Hlt. unfold objects. apply forallb_forall. intros o Ho.
  apply in_map_iff in Ho as (t & <- & Ht).
  apply filter_In in Ht as [Hin Ht].
  apply andb_true_iff in Ht as [_ Hp]. apply String.eqb_eq in Hp.
  unfold literal_labels in Hg. rewrite forallb_forall in Hg.
  specialize (Hg _ Hin). rewrite Hp, Hlt in Hg.
  now rewrite orb_false_r in Hg.
Qed.

Lemma get_concept_labels_returns (g : Graph) (p : params) (concept : string)
    (lts : list string) :
  literal_labels g = true ->
  Forall (fun k => is_label_predicate k = true) lts ->
  exists labels, _get_concept_labels g p concept lts = Ok labels.
Proof.
  intros Hg H. induction H as [|lt rest Hlt Hrest (more & Hm)].
  - now exists [].
  - destruct (keep_language_returns (language p) _
                (objects_literal g concept lt Hg Hlt)) as (here & Hh).
    cbn [_get_concept_labels]. rewrite Hh, Hm. cbn [bind]. now eexists.
Qed.

(** With a valid choice of label kinds and literal labels the builder
    returns an index. *)
Lemma create_index_returns (normalize_word : string -> string) (g : Graph)
    (p : params) (lts : list string) :
  literal_labels g = true -> label_types p = Ok lts ->
  exists index, _create_index normalize_word g p = Ok index.
Proof.
  intros Hg Hp. unfold _create_index.
  assert (H : forall concepts index,
             exists built,
               index_concepts normalize_word g p concepts index = Ok built).
  { induction concepts as [|c rest IH]; intros index; [now eexists|].
    cbn [index_concepts].
    destruct (graph_contains g c OWL_deprecated Literal_True); [apply IH|].
    rewrite Hp. cbn [bind].
    destruct (get_concept_labels_returns g p c lts Hg
                (label_types_values _ _ Hp)) as (labels & Hl).
    rewrite Hl. cbn [bind]. apply IH. }
  destruct (H (subjects g RDF_type (URIRef SKOS_Concept)) []) as (built & Hb).
  rewrite Hb. cbn [bind]. now eexists.
Qed.

(** ** The order of strings *)

Lemma ascii_compare_trans (x y z : ascii) :
  Ascii.compare x y = Lt -> Ascii.compare y z = Lt -> Ascii.compare x z = Lt.
Proof. unfold Ascii.compare. rewrite !N.compare_lt_iff. apply N.lt_trans. Qed.

Lemma ascii_compare_refl (x : ascii) : Ascii.compare x x = Eq.
Proof. unfold Ascii.compare. apply N.compare_refl. Qed.

Lemma string_compare_trans (a : string) :
  forall b c, String.compare a b = Lt -> String.compare b c = Lt ->
              String.compare a c = Lt.
Proof.
  induction a as [|x a IH]; intros [|y b] [|z c]; simpl;
    try discriminate; try reflexivity.
  destruct (Ascii.compare x y) eqn:Exy; try discriminate;
    destruct (Ascii.compare y z) eqn:Eyz; try discriminate; intros H1 H2.
  - apply Ascii.compare_eq_iff in Exy, Eyz. subst.
    rewrite ascii_compare_refl. now apply (IH b c).
  - apply Ascii.compare_eq_iff in Exy. subst. now rewrite Eyz.
  - apply Ascii.compare_eq_iff in Eyz. subst. now rewrite Exy.
  - now rewrite (ascii_compare_trans _ _ _ Exy Eyz).
Qed.

Lemma ltb_trans (a b c : string) :
  String.ltb a b = true -> String.ltb b c = true -> String.ltb a c = true.
Proof.
  unfold String.ltb. intros H1 H2.
  destruct (String.compare a b) eqn:E1; try discriminate.
  destruct (String.compare b c) eqn:E2; try discriminate.
  now rewrite (string_compare_trans _ _ _ E1 E2).
Qed.

Lemma ltb_asym (a b : string) : String.ltb a b = true -> String.ltb b a = false.
Proof.
  unfold String.ltb. rewrite (String.compare_antisym b a).
  now destruct (String.compare a b).
Qed.

Lemma ltb_connex (a b : string) :
  String.ltb a b = false -> String.ltb b a = false -> a = b.
Proof.
  unfold String.ltb. rewrite (String.compare_antisym b a).
  destruct (String.compare a b) eqn:E; try discriminate.
  intros _ _. now apply String.compare_eq_iff.
Qed.

(** ** Sorting *)

Lemma insert_sorted_swap (x y : string) (l : list string) :
  insert_sorted x (insert_sorted y l) = insert_sorted y (insert_sorted x l).
Proof.
  induction l as [|v l IH]; simpl.
  - destruct (String.ltb x y) eqn:Exy.
    + now rewrite (ltb_asym _ _ Exy).
    + destruct (String.ltb y x) eqn:Eyx; [reflexivity|].
      now rewrite (ltb_connex _ _ Exy Eyx).
  - destruct (String.ltb y v) eqn:Eyv; destruct (String.ltb x v) eqn:Exv; simpl.
    + destruct (String.ltb x y) eqn:Exy.
      * now rewrite (ltb_asym _ _ Exy), Eyv.
      * destruct (String.ltb y x) eqn:Eyx.
        -- now rewrite Exv.
        -- now rewrite (ltb_connex _ _ Exy Eyx).
    + destruct (String.ltb x y) eqn:Exy.
      * now rewrite (ltb_trans _ _ _ Exy Eyv) in Exv.
      * now rewrite Exv, Eyv.
    + destruct (String.ltb y x) eqn:Eyx.
      * now rewrite (ltb_trans _ _ _ Eyx Exv) in Eyv.
      * now rewrite Exv, Eyv.
    + now rewrite Exv, Eyv, IH.
Qed.

Lemma insert_sorted_perm (x : string) (l : list string) :
  Permutation (insert_sorted x l) (x :: l).
Proof.
  induction l as [|v l IH]; simpl; [reflexivity|].
  destruct (String.ltb x v); [reflexivity|].
  rewrite IH. apply perm_swap.
Qed.

Lemma sorted_perm (l : list string) : Permutation (sorted l) l.
Proof.
  induction l as [|x l IH]; simpl; [reflexivity|].
  rewrite insert_sorted_perm. now constructor.
Qed.

Lemma sorted_of_permutation (l l' : list string) :
  Permutation l l' -> sorted l = sorted l'.
Proof.
  induction 1 as [|x l l' _ IH|x y l|l l' l'' _ IH1 _ IH2]; simpl.
  - reflexivity.
  - now rewrite IH.
  - apply insert_sorted_swap.
  - now rewrite IH1.
Qed.

Lemma sorted_idempotent (l : list string) : sorted (sorted l) = sorted l.
Proof. apply sorted_of_permutation, sorted_perm. Qed.

Lemma insert_sorted_order (x : string) (l : list string) :
  Sorted (fun a b => String.ltb b a = false) l ->
  Sorted (fun a b => String.ltb b a = false) (insert_sorted x l).
Proof.
  induction 1 as [|v l Hl IH Hv]; simpl; [now repeat constructor|].
  destruct (String.ltb x v) eqn:E.
  - constructor; [now constructor|]. constructor. now apply ltb_asym.
  - constructor; [exact IH|].
    destruct l as [|w l]; simpl; [now constructor|].
    destruct (String.ltb x w); constructor; [exact E|].
    now inversion Hv.
Qed.

Lemma sorted_order (l : list string) :
  Sorted (fun a b => String.ltb b a = false) (sorted l).
Proof.
  induction l as [|x l IH]; simpl; [constructor|].
  now apply insert_sorted_order.
Qed.

(** ** Words of joined strings *)

Lemma fields_nonempty (p : ascii -> bool) (s : string) : fields p s <> [].
Proof.
  destruct s as [|c s]; simpl; [discriminate|].
  destruct (p c); [discriminate|]. now destruct (fields p s).
Qed.

Lemma fields_app (p : ascii -> bool) (a b : string) (c : ascii) :
  p c = true -> fields p (a ++ String c b) = fields p a ++ fields p b.
Proof.
  intros Hc. induction a as [|x a IH]; simpl.
  - now rewrite Hc.
  - destruct (p x); [now rewrite IH|].
    rewrite IH. pose proof (fields_nonempty p a) as Hne.
    now destruct (fields p a).
Qed.

Lemma split_app (a b : string) (c : ascii) :
  isspace c = true -> split (a ++ String c b) = split a ++ split b.
Proof.
  intros Hc. unfold split. rewrite (fields_app _ _ _ _ Hc).
  apply filter_app.
Qed.

Lemma split_join_words (l : list string) :
  split (join " " l) = flat_map split l.
Proof.
  induction l as [|x [|y l] IH].
  - reflexivity.
  - simpl. now rewrite app_nil_r.
  - rewrite join_cons.
    change (" " ++ join " " (y :: l))%string
      with (String " " (join " " (y :: l))).
    rewrite split_app by reflexivity. now rewrite IH.
Qed.

Lemma split_token (w : string) : is_token w = true -> split w = [w].
Proof.
  intros H. unfold split.
  rewrite (fields_all_not _ _ (is_token_nospace _ H)).
  now destruct w.
Qed.

Lemma flat_map_split_tokens (l : list string) :
  Forall (fun w => is_token w = true) l -> flat_map split l = l.
Proof.
  induction 1 as [|w l Hw _ IH]; simpl; [reflexivity|].
  now rewrite (split_token _ Hw), IH.
Qed.

Lemma split_sort_phrase (phrase : string) :
  split (_sort_phrase phrase) = sorted (split phrase).
Proof.
  unfold _sort_phrase. rewrite split_join_words.
  apply flat_map_split_tokens, sorted_Forall, split_tokens.
Qed.

(** X1: the words of the key [_sort_phrase] makes are the words of the
    phrase, each as often as in the phrase, in ascending order of code
    points; sorting a key again changes nothing. *)
Theorem sort_phrase_words (phrase : string) :
  Permutation (split phrase) (split (_sort_phrase phrase))
  /\ Sorted (fun a b => String.ltb b a = false) (split (_sort_phrase phrase))
  /\ _sort_phrase (_sort_phrase phrase) = _sort_phrase phrase.
Proof.
  rewrite split_sort_phrase. split; [symmetry; apply sorted_perm|].
  split; [apply sorted_order|].
  unfold _sort_phrase at 1. rewrite split_sort_phrase.
  now rewrite sorted_idempotent.
Qed.

Lemma keyphrase_key_words (normalize_word : string -> string)
    (keyphrase : string) :
  keyphrase_key normalize_word keyphrase
  = join " " (sorted (flat_map (fun w => split (lemma_of normalize_word w))
                               (split keyphrase))).
Proof.
  unfold keyphrase_key, _sort_phrase, _lemmatize_phrase.
  rewrite split_join_words, flat_map_concat_map, map_map.
  now rewrite <- flat_map_concat_map.
Qed.

Lemma flat_map_permutation {A B : Type} (f : A -> list B) (l l' : list A) :
  Permutation l l' -> Permutation (flat_map f l) (flat_map f l').
Proof.
  induction 1 as [|x l l' _ IH|x y l|l l' l'' _ IH1 _ IH2]; simpl.
  - reflexivity.
  - now apply Permutation_app_head.
  - rewrite !app_assoc. apply Permutation_app_tail, Permutation_app_comm.
  - now rewrite IH1.
Qed.

(** X2: two keyphrases with the same words, in whatever order and with
    whatever whitespace between them, have the same key, so they find the
    same concepts in every index. *)
Theorem keyphrase_key_word_order (normalize_word : string -> string)
    (a b : string) :
  Permutation (split a) (split b) ->
  keyphrase_key normalize_word a = keyphrase_key normalize_word b
  /\ forall index, _keyphrase2uris normalize_word index a
                   = _keyphrase2uris normalize_word index b.
Proof.
  intros H.
  assert (E : keyphrase_key normalize_word a = keyphrase_key normalize_word b).
  { rewrite !keyphrase_key_words. f_equal.
    now apply sorted_of_permutation, flat_map_permutation. }
  split; [exact E|]. intros index. unfold _keyphrase2uris. now rewrite E.
Qed.

Lemma keyphrase_key_word_order_witness :
  keyphrase_key (fun w => w) "rock  art" = keyphrase_key (fun w => w) " art rock"
  /\ forall index, _keyphrase2uris (fun w => w) index "rock  art"
                   = _keyphrase2uris (fun w => w) index " art rock".
Proof.
  apply (keyphrase_key_word_order (fun w => w) "rock  art" " art rock").
  apply perm_swap.
Defined.

(** ** Keys of keys *)

Lemma fields_all (p q : ascii -> bool) (s : string) :
  all q s = true -> Forall (fun f => all q f = true) (fields p s).
Proof.
  induction s as [|c s IH]; simpl; intros H.
  - now repeat constructor.
  - apply andb_true_iff in H as [Hc Hs]. specialize (IH Hs).
    destruct (p c); [now constructor|].
    destruct (fields p s) as [|f fs]; [repeat constructor; simpl; now rewrite Hc|].
    inversion IH; subst. constructor; [simpl; now rewrite Hc | assumption].
Qed.

Lemma lower_char_idempotent (c : ascii) : lower_char (lower_char c) = lower_char c.
Proof. destruct c as [[] [] [] [] [] [] [] []]; reflexivity. Qed.

Lemma lower_all (s : string) :
  all (fun c => Ascii.eqb (lower_char c) c) (lower s) = true.
Proof.
  induction s as [|c s IH]; simpl; [reflexivity|].
  now rewrite lower_char_idempotent, Ascii.eqb_refl.
Qed.

Lemma lower_fixed (s : string) :
  all (fun c => Ascii.eqb (lower_char c) c) s = true -> lower s = s.
Proof.
  induction s as [|c s IH]; simpl; [reflexivity|].
  intros H. apply andb_true_iff in H as [Hc Hs].
  apply Ascii.eqb_eq in Hc. now rewrite Hc, (IH Hs).
Qed.

Lemma lower_words_fixed (w : string) :
  Forall (fun t => lower t = t) (split (lower w)).
Proof.
  unfold split. pose proof (fields_all isspace _ _ (lower_all w)) as H.
  induction H as [|f fs Hf _ IH]; simpl; [constructor|].
  destruct (negb (is_empty f)); [|exact IH].
  constructor; [now apply lower_fixed | exact IH].
Qed.

Lemma flat_map_fixed {A : Type} (f : A -> list A) (l : list A) :
  Forall (fun x => f x = [x]) l -> flat_map f l = l.
Proof.
  induction 1 as [|x l Hx _ IH]; simpl; [reflexivity|]. now rewrite Hx, IH.
Qed.

(** X3: when every word the analyzer makes is a word it leaves as it is,
    the key of a key is that key: normalising twice is normalising
    once. *)
Theorem keyphrase_key_idempotent (normalize_word : string -> string)
    (keyphrase : string) :
  (forall w, Forall (fun t => lemma_of normalize_word t = t)
                    (split (lemma_of normalize_word w))) ->
  keyphrase_key normalize_word (keyphrase_key normalize_word keyphrase)
  = keyphrase_key normalize_word keyphrase.
Proof.
  intros Hfix.
  rewrite (keyphrase_key_words normalize_word (keyphrase_key _ _)).
  rewrite (keyphrase_key_words normalize_word keyphrase).
  set (K := flat_map _ (split keyphrase)).
  assert (HK : Forall (fun t => is_token t = true
                               /\ lemma_of normalize_word t = t) K).
  { subst K. apply Forall_flat_map. apply Forall_forall. intros w _.
    pose proof (split_tokens (lemma_of normalize_word w)) as Ht.
    specialize (Hfix w). rewrite Forall_forall in *.
    intros t Hin. split; [now apply Ht | now apply Hfix]. }
  assert (HS : Forall (fun t => is_token t = true
                               /\ lemma_of normalize_word t = t) (sorted K))
    by now apply sorted_Forall.
  rewrite split_join_words, flat_map_split_tokens
    by (eapply Forall_impl; [|exact HS]; now intros t [Ht _]).
  rewrite flat_map_fixed.
  - now rewrite sorted_idempotent.
  - eapply Forall_impl; [|exact HS]. intros t [Ht Hl].
    rewrite Hl. now apply split_token.
Qed.

Lemma keyphrase_key_idempotent_witness :
  keyphrase_key (fun w => w) (keyphrase_key (fun w => w) "Rock Art  of CAVES")
  = keyphrase_key (fun w => w) "Rock Art  of CAVES".
Proof.
  apply (keyphrase_key_idempotent (fun w => w) "Rock Art  of CAVES").
  intros w. apply lower_words_fixed.
Defined.

(** ** Reading a dictionary after a write *)

Section DictReads.
Context {V : Type}.
Implicit Types (d : dict V) (k : string) (v : V).

Lemma dict_get_set_eq d k v : dict_get (dict_set d k v) k = Some v.
Proof.
  induction d as [|[k' v'] d IH]; simpl.
  - now rewrite String.eqb_refl.
  - destruct (String.eqb k' k) eqn:E; simpl; now rewrite E.
Qed.

Lemma dict_get_set_ne d k k' v :
  k <> k' -> dict_get (dict_set d k v) k' = dict_get d k'.
Proof.
  intros Hne. induction d as [|[k0 v0] d IH]; simpl.
  - apply String.eqb_neq in Hne. now rewrite Hne.
  - destruct (String.eqb k0 k) eqn:E; simpl.
    + apply String.eqb_eq in E. subst k0.
      apply String.eqb_neq in Hne. now rewrite Hne.
    + now rewrite IH.
Qed.

Lemma dict_get_pop_eq d k : dict_get (dict_pop d k) k = None.
Proof. apply dict_get_None, dict_pop_gone. Qed.

Lemma dict_get_pop_ne d k k' :
  k <> k' -> dict_get (dict_pop d k) k' = dict_get d k'.
Proof.
  intros Hne. induction d as [|[k0 v0] d IH]; simpl; [reflexivity|].
  destruct (String.eqb k0 k) eqn:E; simpl.
  - apply String.eqb_eq in E. subst k0.
    apply String.eqb_neq in Hne. now rewrite Hne.
  - now rewrite IH.
Qed.

Lemma set_mem_In (x : string) (s : list string) :
  set_mem x s = true <-> In x s.
Proof.
  unfold set_mem. rewrite existsb_exists. split.
  - intros (y & Hy & E). apply String.eqb_eq in E. now subst.
  - intros H. exists x. split; [exact H | apply String.eqb_refl].
Qed.

Lemma keys_dict_set d k v : keys (dict_set d k v) = set_add (keys d) k.
Proof.
  unfold set_add. destruct (set_mem k (keys d)) eqn:E.
  - apply set_mem_In in E.
    induction d as [|[k' v'] d IH]; simpl in *; [tauto|].
    destruct (String.eqb k' k) eqn:E'; [reflexivity|].
    apply String.eqb_neq in E'. simpl. f_equal. apply IH. tauto.
  - rewrite dict_set_fresh.
    + unfold keys. now rewrite map_app.
    + intros H. apply set_mem_In in H. congruence.
Qed.

Lemma dict_In_get d k v : NoDup (keys d) -> In (k, v) d -> dict_get d k = Some v.
Proof.
  induction d as [|[k' v'] d IH]; simpl; [tauto|].
  intros Hnd [E|Hin].
  - injection E as -> ->. now rewrite String.eqb_refl.
  - inversion Hnd as [|? ? Hout Hd]; subst.
    destruct (String.eqb k' k) eqn:E.
    + apply String.eqb_eq in E. subst. exfalso. apply Hout.
      unfold keys. apply in_map_iff. now exists (k, v).
    + now apply IH.
Qed.
End DictReads.

Lemma set_add_In (s : list string) (x y : string) :
  In y (set_add s x) <-> In y s \/ y = x.
Proof.
  unfold set_add. destruct (set_mem x s) eqn:E.
  - apply set_mem_In in E. split; [tauto | intros [H| ->]; assumption].
  - rewrite in_app_iff. simpl. split; [intros [H|[H|[]]]; auto | intros [H|H]; auto].
Qed.

Lemma set_add_NoDup (s : list string) (x : string) :
  NoDup s -> NoDup (set_add s x).
Proof.
  intros H. unfold set_add. destruct (set_mem x s) eqn:E; [exact H|].
  apply NoDup_app; [exact H | repeat constructor; simpl; tauto |].
  intros y Hy [<-|[]]. apply set_mem_In in Hy. congruence.
Qed.

Lemma fold_set_add_In (l acc : list string) (y : string) :
  In y (fold_left set_add l acc) <-> In y acc \/ In y l.
Proof.
  revert acc. induction l as [|x l IH]; intros acc; simpl; [tauto|].
  rewrite IH, set_add_In. intuition (subst; auto).
Qed.

Lemma fold_set_add_NoDup (l acc : list string) :
  NoDup acc -> NoDup (fold_left set_add l acc).
Proof.
  revert acc. induction l as [|x l IH]; intros acc H; simpl; [exact H|].
  now apply IH, set_add_NoDup.
Qed.

(** ** The combination of suggestions *)

Lemma combine_loop_keys (l : list (string * Q)) :
  forall acc out : dict Q,
    combine_loop l acc = Ok out ->
    keys out = fold_left set_add (map fst l) (keys acc).
Proof.
  induction l as [|[u s] l IH]; intros acc out H.
  - injection H as <-. reflexivity.
  - cbn [combine_loop] in H. cbn [map fst fold_left].
    rewrite <- (keys_dict_set acc u s).
    destruct (dict_get acc u) as [old|].
    + destruct (_conflate_scores s old) as [c|e]; [|discriminate].
      cbn [bind] in H. rewrite (IH _ _ H).
      now rewrite !keys_dict_set.
    + exact (IH _ _ H).
Qed.

(** X4: the URIs of the combined suggestions are the distinct URIs of the
    list in the order of their first occurrence; no URI is there twice and
    none is lost. *)
Theorem combine_suggestions_uris (suggestions out : list (string * Q)) :
  _combine_suggestions suggestions = Ok out ->
  keys out = first_occurrences (map fst suggestions)
  /\ NoDup (keys out)
  /\ (forall u, In u (keys out) <-> In u (map fst suggestions)).
Proof.
  intros H. apply combine_loop_keys in H. rewrite H.
  unfold first_occurrences. split; [reflexivity|].
  split; [apply fold_set_add_NoDup; constructor|].
  intros u. rewrite fold_set_add_In. simpl. tauto.
Qed.

Lemma combine_suggestions_uris_witness :
  keys [("a", (16 # 32)%Q); ("b", (1 # 3)%Q)]
  = first_occurrences (map fst [("a", (1 # 2)%Q); ("b", (1 # 3)%Q);
                                ("a", (1 # 2)%Q)])
  /\ NoDup (keys [("a", (16 # 32)%Q); ("b", (1 # 3)%Q)])
  /\ (forall u, In u (keys [("a", (16 # 32)%Q); ("b", (1 # 3)%Q)])
                <-> In u (map fst [("a", (1 # 2)%Q); ("b", (1 # 3)%Q);
                                   ("a", (1 # 2)%Q)])).
Proof.
  exact (combine_suggestions_uris
           [("a", (1 # 2)%Q); ("b", (1 # 3)%Q); ("a", (1 # 2)%Q)]
           [("a", (16 # 32)%Q); ("b", (1 # 3)%Q)] eq_refl).
Defined.

Lemma combine_loop_distinct (l : list (string * Q)) :
  forall acc : dict Q,
    NoDup (keys acc ++ map fst l) -> combine_loop l acc = Ok (acc ++ l).
Proof.
  induction l as [|[u s] l IH]; intros acc H.
  - simpl. now rewrite app_nil_r.
  - cbn [combine_loop]. cbn [map fst] in H.
    assert (Hout : ~ In u (keys acc)).
    { apply NoDup_remove_2 in H. intros Hin. apply H, in_or_app. now left. }
    rewrite (proj2 (dict_get_None acc u) Hout), (dict_set_fresh _ _ _ Hout).
    rewrite IH.
    + now rewrite <- app_assoc.
    + unfold keys in *. rewrite map_app, <- app_assoc. exact H.
Qed.

(** X5: suggestions whose URIs are all different come back as they are,
    in the same order and with the same scores, whatever the scores. *)
Theorem combine_suggestions_distinct (suggestions : list (string * Q)) :
  NoDup (map fst suggestions) ->
  _combine_suggestions suggestions = Ok suggestions.
Proof. intros H. exact (combine_loop_distinct suggestions [] H). Qed.

Lemma combine_suggestions_distinct_witness :
  _combine_suggestions [("http://www.yso.fi/onto/yso/p1265", (3 # 4)%Q);
                        ("http://www.yso.fi/onto/yso/p1266", (1 # 4)%Q)]
  = Ok [("http://www.yso.fi/onto/yso/p1265", (3 # 4)%Q);
        ("http://www.yso.fi/onto/yso/p1266", (1 # 4)%Q)].
Proof.
  apply (combine_suggestions_distinct
           [("http://www.yso.fi/onto/yso/p1265", (3 # 4)%Q);
            ("http://www.yso.fi/onto/yso/p1266", (1 # 4)%Q)]).
  repeat constructor; simpl; intuition discriminate.
Defined.

(** ** What a built index holds *)

Lemma keep_language_filter (lang : string) (labels : list node) :
  forall kept, keep_language lang labels = Ok kept ->
               kept = filter (in_language lang) labels.
Proof.
  induction labels as [|l rest IH]; intros kept H.
  - now injection H as <-.
  - destruct l as [|lexical llang datatype]; [discriminate|].
    cbn [keep_language] in H.
    destruct (keep_language lang rest) as [k|e]; [|discriminate].
    cbn [bind] in H. injection H as <-. cbn [filter in_language].
    now rewrite (IH k eq_refl).
Qed.

Lemma get_concept_labels_flat (g : Graph) (p : params) (concept : string)
    (lts : list string) :
  forall labels,
    _get_concept_labels g p concept lts = Ok labels ->
    labels = flat_map (fun lt => filter (in_language (language p))
                                        (objects g concept lt)) lts.
Proof.
  induction lts as [|lt rest IH]; intros labels H.
  - now injection H as <-.
  - cbn [_get_concept_labels] in H.
    destruct (keep_language (language p) (objects g concept lt))
      as [here|e] eqn:E; [|discriminate].
    cbn [bind] in H.
    destruct (_get_concept_labels g p concept rest) as [more|e]; [|discriminate].
    cbn [bind] in H. injection H as <-. cbn [flat_map].
    now rewrite (keep_language_filter _ _ _ E), (IH more eq_refl).
Qed.

Lemma objects_In (g : Graph) (s p : string) (o : node) :
  In o (objects g s p)
  <-> In {| subject := s; predicate := p; object := o |} g.
Proof.
  unfold objects. rewrite in_map_iff. split.
  - intros ([s' p' o'] & <- & Hin). apply filter_In in Hin as [Hin H].
    cbn in H. apply andb_true_iff in H as [Hs Hp].
    apply String.eqb_eq in Hs, Hp. now subst.
  - intros Hin. eexists. split; [|apply filter_In; split; [exact Hin|]].
    + reflexivity.
    + cbn. now rewrite !String.eqb_refl.
Qed.

Lemma in_language_literal (lang : string) (l : node) :
  in_language lang l = true
  <-> exists text datatype, l = Literal text (Some lang) datatype.
Proof.
  split.
  - destruct l as [|text [llang|] datatype]; try discriminate.
    simpl. intros H. apply String.eqb_eq in H. subst. now eexists _, _.
  - intros (text & datatype & ->). simpl. apply String.eqb_refl.
Qed.

(** The labels [_get_concept_labels] returns: the literals of the
    configured language the graph attaches to the concept by one of the
    given kinds. *)
Lemma get_concept_labels_In (g : Graph) (p : params) (concept : string)
    (lts : list string) (labels : list node) (l : node) :
  _get_concept_labels g p concept lts = Ok labels ->
  In l labels
  <-> exists kind text datatype,
        In kind lts
        /\ l = Literal text (Some (language p)) datatype
        /\ In {| subject := concept; predicate := kind; object := l |} g.
Proof.
  intros H. rewrite (get_concept_labels_flat _ _ _ _ _ H), in_flat_map.
  split.
  - intros (kind & Hk & Hin). apply filter_In in Hin as [Hin Hl].
    apply in_language_literal in Hl as (text & datatype & ->).
    exists kind, text, datatype. split; [exact Hk|]. split; [reflexivity|].
    now apply objects_In.
  - intros (kind & text & datatype & Hk & -> & Hin).
    exists kind. split; [exact Hk|]. apply filter_In.
    split; [now apply objects_In | simpl; apply String.eqb_refl].
Qed.

Section IndexContents.
Variable normalize_word : string -> string.
Variable g : Graph.
Variable p : params.

Lemma add_labels_indexed (labels : list node) :
  forall (index : dict (list string)) (uri key u : string),
    indexed (add_labels normalize_word p index uri labels) key u
    <-> indexed index key u
        \/ (u = uri /\ exists l, In l labels
                                 /\ _normalize_label normalize_word p l = key).
Proof.
  induction labels as [|l rest IH]; intros index uri key u.
  - simpl. split; [now left | intros [H|(_ & l & [] & _)]; exact H].
  - cbn [add_labels]. rewrite IH. clear IH.
    set (k0 := _normalize_label normalize_word p l).
    set (cur := match dict_get index k0 with Some s => s | None => [] end).
    assert (Hstep : indexed (dict_set index k0 (set_add cur uri)) key u
                    <-> indexed index key u \/ (u = uri /\ k0 = key)).
    { unfold indexed. destruct (string_dec k0 key) as [<-|Hne].
      - rewrite dict_get_set_eq. subst cur. split.
        + intros (uris & [= <-] & Hin). apply set_add_In in Hin as [Hin| ->].
          * left. destruct (dict_get index k0) as [s|]; [|destruct Hin].
            now exists s.
          * now right.
        + intros [(uris & Hg & Hin)|[-> _]].
          * eexists. split; [reflexivity|]. apply set_add_In. left.
            now rewrite Hg.
          * eexists. split; [reflexivity|]. apply set_add_In. now right.
      - rewrite (dict_get_set_ne _ _ _ _ Hne). split; [now left|].
        intros [H|[_ H]]; [exact H | contradiction]. }
    rewrite Hstep. split.
    + intros [[H|[-> <-]]|(-> & l' & Hin & Hk)].
      * now left.
      * right. split; [reflexivity|]. exists l. split; [now left | reflexivity].
      * right. split; [reflexivity|]. exists l'. split; [now right | exact Hk].
    + intros [H|(-> & l' & [<-|Hin] & Hk)].
      * now left; left.
      * left. right. now split.
      * right. split; [reflexivity|]. now exists l'.
Qed.

Lemma index_concepts_indexed (concepts : list string) :
  forall (index built : dict (list string)) (key u : string),
    index_concepts normalize_word g p concepts index = Ok built ->
    indexed built key u
    <-> indexed index key u
        \/ (In u concepts /\ deprecated g u = false
            /\ exists lts labels l,
                 label_types p = Ok lts
                 /\ _get_concept_labels g p u lts = Ok labels
                 /\ In l labels
                 /\ _normalize_label normalize_word p l = key).
Proof.
  induction concepts as [|c rest IH]; intros index built key u H.
  - injection H as <-. simpl. split; [now left | intros [H|[[] _]]; exact H].
  - cbn [index_concepts] in H. fold (deprecated g c) in H.
    destruct (deprecated g c) eqn:Edep.
    + rewrite (IH _ _ _ _ H). split.
      * intros [Hi|(Hin & Hrest)]; [now left | right].
        split; [now right | exact Hrest].
      * intros [Hi|([->|Hin] & Hd & Hrest)]; [now left | congruence | right].
        now split.
    + destruct (label_types p) as [lts|e] eqn:Elt; [|discriminate].
      cbn [bind] in H.
      destruct (_get_concept_labels g p c lts) as [labels|e] eqn:El;
        [|discriminate].
      cbn [bind] in H. rewrite (IH _ _ _ _ H), add_labels_indexed. split.
      * intros [[Hi|(-> & l & Hin & Hk)]|(Hin & Hrest)].
        -- now left.
        -- right. split; [now left|]. split; [exact Edep|].
           now exists lts, labels, l.
        -- right. split; [now right | exact Hrest].
      * intros [Hi|([->|Hin] & Hd & Hrest)].
        -- now left; left.
        -- left. right. split; [reflexivity|].
           destruct Hrest as (lts' & labels' & l & [= <-] & Hl & Hin & Hk).
           rewrite El in Hl. injection Hl as <-. now exists l.
        -- right. now split.
Qed.

(** The entries of a built index, exactly. *)
Lemma create_index_indexed (index : dict (list string)) (key u : string) :
  _create_index normalize_word g p = Ok index ->
  indexed index key u
  <-> key <> EmptyString
      /\ In u (subjects g RDF_type (URIRef SKOS_Concept))
      /\ deprecated g u = false
      /\ exists lts kind text datatype,
           label_types p = Ok lts /\ In kind lts
           /\ In {| subject := u; predicate := kind;
                    object := Literal text (Some (language p)) datatype |} g
           /\ _normalize_label normalize_word p
                (Literal text (Some (language p)) datatype) = key.
Proof.
  unfold _create_index. intros H.
  destruct (index_concepts normalize_word g p
              (subjects g RDF_type (URIRef SKOS_Concept)) [])
    as [built|e] eqn:E; [|discriminate].
  cbn [bind] in H. injection H as <-.
  pose proof (index_concepts_indexed _ _ _ key u E) as Hb.
  assert (Hempty : ~ indexed [] key u) by (intros (uris & Hg & _); discriminate).
  unfold indexed at 1.
  destruct (string_dec EmptyString key) as [<-|Hne].
  - rewrite dict_get_pop_eq. split.
    + intros (uris & Hg & _). discriminate.
    + intros [Hk _]. congruence.
  - rewrite (dict_get_pop_ne _ _ _ Hne). fold (indexed built key u).
    rewrite Hb. split.
    + intros [Hi|(Hin & Hd & lts & labels & l & Hlt & Hl & Hlin & Hk)];
        [contradiction|].
      split; [congruence|]. split; [exact Hin|]. split; [exact Hd|].
      apply (get_concept_labels_In _ _ _ _ _ _ Hl) in Hlin
        as (kind & text & datatype & Hkind & -> & Ht).
      now exists lts, kind, text, datatype.
    + intros (_ & Hin & Hd & lts & kind & text & datatype & Hlt & Hkind & Ht & Hk).
      right. split; [exact Hin|]. split; [exact Hd|].
      assert (Hret : exists labels, _get_concept_labels g p u lts = Ok labels).
      { clear - E Hin Hd Hlt.
        assert (Hgen : forall concepts index built,
                  index_concepts normalize_word g p concepts index = Ok built ->
                  In u concepts ->
                  exists labels, _get_concept_labels g p u lts = Ok labels).
        { induction concepts as [|c rest IH]; intros index b Hb [];
            cbn [index_concepts] in Hb; fold (deprecated g c) in Hb.
          - subst c. rewrite Hd, Hlt in Hb. cbn [bind] in Hb.
            destruct (_get_concept_labels g p u lts); [now eexists | discriminate].
          - destruct (deprecated g c); [now apply (IH _ _ Hb)|].
            rewrite Hlt in Hb. cbn [bind] in Hb.
            destruct (_get_concept_labels g p c lts); [|discriminate].
            cbn [bind] in Hb. now apply (IH _ _ Hb). }
        exact (Hgen _ _ _ E Hin). }
      destruct Hret as (labels & Hl).
      exists lts, labels, (Literal text (Some (language p)) datatype).
      split; [exact Hlt|]. split; [exact Hl|]. split; [|exact Hk].
      apply (get_concept_labels_In _ _ _ _ _ _ Hl).
      now exists kind, text, datatype.
Qed.
End IndexContents.

(** X9: a URI is in the set a built index keeps under a key exactly when
    the key is not empty, the URI is that of a concept of the graph without
    the deprecation mark, and the graph attaches to the concept, by one of
    the configured label kinds, a literal of the configured language whose
    normalised text is the key. *)
Theorem create_index_contents (normalize_word : string -> string) (g : Graph)
    (p : params) (index : dict (list string)) (key u : string) :
  _create_index normalize_word g p = Ok index ->
  indexed index key u
  <-> key <> EmptyString
      /\ In u (subjects g RDF_type (URIRef SKOS_Concept))
      /\ deprecated g u = false
      /\ exists lts kind text datatype,
           label_types p = Ok lts /\ In kind lts
           /\ In {| subject := u; predicate := kind;
                    object := Literal text (Some (language p)) datatype |} g
           /\ _normalize_label normalize_word p
                (Literal text (Some (language p)) datatype) = key.
Proof. apply create_index_indexed. Qed.

Lemma create_index_contents_witness :
  indexed example_index "cave paintings" "http://example.org/c1"
  <-> "cave paintings" <> EmptyString
      /\ In "http://example.org/c1"
            (subjects example_graph RDF_type (URIRef SKOS_Concept))
      /\ deprecated example_graph "http://example.org/c1" = false
      /\ exists lts kind text datatype,
           label_types example_params = Ok lts /\ In kind lts
           /\ In {| subject := "http://example.org/c1"; predicate := kind;
                    object := Literal text (Some (language example_params))
                                datatype |} example_graph
           /\ _normalize_label (fun w => w) example_params
                (Literal text (Some (language example_params)) datatype)
              = "cave paintings".
Proof.
  exact (create_index_contents (fun w => w) example_graph example_params
           example_index "cave paintings" "http://example.org/c1" eq_refl).
Defined.

(** X10: a keyphrase that is the text of a label finds the concept of the
    label: when the graph attaches a literal of the configured language to
    a concept without the deprecation mark by a configured kind, the
    keyphrase made of the text of the literal, with the parenthetical
    removed when [remove_parentheses] is set, is matched to the concept,
    unless its key is empty. *)
Theorem keyphrase_finds_labelled_concept (normalize_word : string -> string)
    (g : Graph) (p : params) (index : dict (list string))
    (lts : list string) (u kind text : string) (datatype : option string) :
  _create_index normalize_word g p = Ok index ->
  label_types p = Ok lts -> In kind lts ->
  In u (subjects g RDF_type (URIRef SKOS_Concept)) ->
  deprecated g u = false ->
  In {| subject := u; predicate := kind;
        object := Literal text (Some (language p)) datatype |} g ->
  keyphrase_key normalize_word
    (if remove_parentheses p then re_sub_parens text else text)
  <> EmptyString ->
  In u (_keyphrase2uris normalize_word index
          (if remove_parentheses p then re_sub_parens text else text)).
Proof.
  intros Hc Hlt Hk Hu Hd Ht Hkey.
  assert (Hi : indexed index
                 (keyphrase_key normalize_word
                    (if remove_parentheses p then re_sub_parens text else text))
                 u).
  { apply (create_index_indexed _ _ _ _ _ _ Hc).
    split; [exact Hkey|]. split; [exact Hu|]. split; [exact Hd|].
    now exists lts, kind, text, datatype. }
  destruct Hi as (uris & Hg & Hin). unfold _keyphrase2uris. now rewrite Hg.
Qed.

Lemma keyphrase_finds_labelled_concept_witness :
  In "http://example.org/c1"
     (_keyphrase2uris (fun w => w) example_index
        (if remove_parentheses example_params
         then re_sub_parens "Rock art (archaeology)"
         else "Rock art (archaeology)")).
Proof.
  apply (keyphrase_finds_labelled_concept (fun w => w) example_graph
           example_params example_index [SKOS_prefLabel; SKOS_altLabel]
           "http://example.org/c1" SKOS_prefLabel "Rock art (archaeology)" None).
  - reflexivity.
  - reflexivity.
  - now left.
  - now left.
  - reflexivity.
  - right. now left.
  - discriminate.
Defined.

Lemma normalize_label_params (normalize_word : string -> string)
    (p p' : params) (l : node) :
  remove_parentheses p = remove_parentheses p' ->
  _normalize_label normalize_word p l = _normalize_label normalize_word p' l.
Proof. intros H. unfold _normalize_label. now rewrite H. Qed.

Lemma create_index_key_indexed (normalize_word : string -> string)
    (g : Graph) (p : params) (index : dict (list string)) (key : string) :
  _create_index normalize_word g p = Ok index ->
  In key (keys index) <-> exists u, indexed index key u.
Proof.
  intros H. destruct (create_index_entries _ _ _ _ H) as [Hnd Hall]. split.
  - intros Hin. unfold keys in Hin. apply in_map_iff in Hin as ([k uris] & <- & Hin).
    rewrite Forall_forall in Hall. destruct (Hall _ Hin) as (_ & Hne & _).
    cbn [fst snd] in *. destruct uris as [|u us]; [congruence|].
    exists u, (u :: us). split; [now apply dict_In_get | now left].
  - intros (u & uris & Hg & _). apply dict_get_In in Hg.
    unfold keys. apply in_map_iff. now exists (key, uris).
Qed.

(** X11: configuring more label kinds never removes anything from the
    index: with the same graph, language and parenthesis setting, every key
    and every URI under a key of the index built from a list of kinds is in
    the index built from a list that includes it. *)
Theorem create_index_more_label_kinds (normalize_word : string -> string)
    (g : Graph) (p p' : params) (index index' : dict (list string))
    (lts lts' : list string) :
  language p = language p' ->
  remove_parentheses p = remove_parentheses p' ->
  label_types p = Ok lts -> label_types p' = Ok lts' -> incl lts lts' ->
  _create_index normalize_word g p = Ok index ->
  _create_index normalize_word g p' = Ok index' ->
  (forall key u, indexed index key u -> indexed index' key u)
  /\ incl (keys index) (keys index').
Proof.
  intros Hlang Hrem Hlt Hlt' Hincl Hc Hc'.
  assert (Hmono : forall key u, indexed index key u -> indexed index' key u).
  { intros key u Hi.
    apply (create_index_indexed _ _ _ _ _ _ Hc) in Hi
      as (Hkey & Hu & Hd & l0 & kind & text & datatype & E & Hk & Ht & Hn).
    rewrite Hlt in E. injection E as <-.
    apply (create_index_indexed _ _ _ _ _ _ Hc').
    split; [exact Hkey|]. split; [exact Hu|]. split; [exact Hd|].
    exists lts', kind, text, datatype.
    split; [exact Hlt'|]. split; [now apply Hincl|].
    rewrite <- Hlang. split; [exact Ht|].
    now rewrite <- (normalize_label_params _ p p' _ Hrem). }
  split; [exact Hmono|]. intros key Hin.
  apply (create_index_key_indexed _ _ _ _ _ Hc) in Hin as (u & Hi).
  apply (create_index_key_indexed _ _ _ _ _ Hc'). exists u. now apply Hmono.
Qed.

Lemma create_index_more_label_kinds_witness :
  (forall key u, indexed example_pref_index key u -> indexed example_index key u)
  /\ incl (keys example_pref_index) (keys example_index).
Proof.
  apply (create_index_more_label_kinds (fun w => w) example_graph
           pref_only_params example_params example_pref_index example_index
           [SKOS_prefLabel] [SKOS_prefLabel; SKOS_altLabel]);
    try reflexivity.
  intros k [<-|[]]. now left.
Defined.

Lemma index_concepts_invalid (normalize_word : string -> string) (g : Graph)
    (p : params) (e : exn) (concepts : list string) :
  label_types p = Raise e ->
  forall index,
    index_concepts normalize_word g p concepts index
    = match filter (fun c => negb (deprecated g c)) concepts with
      | [] => Ok index
      | _ :: _ => Raise e
      end.
Proof.
  intros Hlt. induction concepts as [|c rest IH]; intros index; [reflexivity|].
  cbn [index_concepts filter]. fold (deprecated g c).
  destruct (deprecated g c); cbn [negb]; [apply IH|].
  now rewrite Hlt.
Qed.

(** X12: a [label_types] setting that raises makes the index builder raise
    the same exception as soon as the graph has a concept without the
    deprecation mark; with no such concept the builder returns the empty
    index and the setting is never read. *)
Theorem create_index_invalid_label_types (normalize_word : string -> string)
    (g : Graph) (p : params) (e : exn) :
  label_types p = Raise e ->
  _create_index normalize_word g p
  = match live_concepts g with
    | [] => Ok []
    | _ :: _ => Raise e
    end.
Proof.
  intros Hlt. unfold _create_index, live_concepts.
  rewrite (index_concepts_invalid _ _ _ _ _ Hlt).
  now destruct (filter _ _).
Qed.

Lemma create_index_invalid_label_types_witness :
  _create_index (fun w => w) example_graph unknown_kind_params
  = Raise (ConfigurationException "invalid label type 'related'")
  /\ _create_index (fun w => w) deprecated_graph unknown_kind_params = Ok [].
Proof.
  split.
  - exact (create_index_invalid_label_types (fun w => w) example_graph
             unknown_kind_params _ eq_refl).
  - exact (create_index_invalid_label_types (fun w => w) deprecated_graph
             unknown_kind_params _ eq_refl).
Defined.

(** ** Lines of the index file *)

Lemma fields_length (p : ascii -> bool) (s : string) :
  length (fields p s) = S (count p s).
Proof.
  induction s as [|c s IH]; simpl; [reflexivity|].
  destruct (p c); simpl; [now rewrite IH|].
  pose proof (fields_nonempty p s) as Hne.
  destruct (fields p s) as [|f fs]; [congruence|]. exact IH.
Qed.

Lemma parse_line_one_tab (line : string) :
  if one_tab line
  then exists label uris,
         fields (is_char TAB) (strip line) = [label; uris]
         /\ parse_line line = Ok (label, split uris)
  else parse_line line = Raise ValueError.
Proof.
  unfold one_tab, parse_line.
  pose proof (fields_length (is_char TAB) (strip line)) as Hlen.
  destruct (Nat.eqb (count (is_char TAB) (strip line)) 1) eqn:E.
  - apply Nat.eqb_eq in E. rewrite E in Hlen.
    destruct (fields (is_char TAB) (strip line)) as [|a [|b [|c l]]];
      try discriminate. now exists a, b.
  - apply Nat.eqb_neq in E.
    destruct (fields (is_char TAB) (strip line)) as [|a [|b [|c l]]];
      try reflexivity. simpl in Hlen. congruence.
Qed.

Lemma load_lines_one_tab (lines : list string) :
  forall index,
    if forallb one_tab lines
    then exists loaded, load_lines lines index = Ok loaded
    else load_lines lines index = Raise ValueError.
Proof.
  induction lines as [|line rest IH]; intros index; [now eexists|].
  cbn [forallb load_lines]. pose proof (parse_line_one_tab line) as Hp.
  destruct (one_tab line); cbn [andb].
  - destruct Hp as (label & uris & _ & ->). cbn [bind]. apply IH.
  - now rewrite Hp.
Qed.

(** X13: [_load_index] returns an index when every line of the file,
    stripped, has exactly one tab, and raises [ValueError] as soon as a line
    has none or more than one; a blank line is such a line. *)
Theorem load_index_one_tab (file : string) :
  (forallb one_tab (readlines file) = true ->
   exists index, _load_index file = Ok index)
  /\ (forallb one_tab (readlines file) = false ->
      _load_index file = Raise ValueError).
Proof.
  unfold _load_index.
  pose proof (load_lines_one_tab (readlines file) []) as H.
  destruct (forallb one_tab (readlines file)); split;
    [intros _; exact H | discriminate | discriminate | intros _; exact H].
Qed.

Lemma load_index_one_tab_witness :
  (exists index,
     _load_index (String "a" (String TAB (String "u" (String LF ""))))
     = Ok index)
  /\ _load_index (String "a" (String TAB (String "u" (String LF
                   (String LF (String "b" (String TAB (String "v" ""))))))))
     = Raise ValueError.
Proof.
  split.
  - exact (proj1 (load_index_one_tab
                    (String "a" (String TAB (String "u" (String LF "")))))
                 eq_refl).
  - exact (proj2 (load_index_one_tab
                    (String "a" (String TAB (String "u" (String LF
                       (String LF (String "b" (String TAB (String "v" "")))))))))
                 eq_refl).
Defined.

(** ** What a loaded index holds *)

Lemma append_length (a b : string) :
  String.length (a ++ b) = String.length a + String.length b.
Proof. induction a as [|c a IH]; simpl; [reflexivity | now rewrite IH]. Qed.

Lemma rstrip_length (s : string) : String.length (rstrip s) <= String.length s.
Proof.
  induction s as [|c s IH]; simpl; [lia|].
  destruct (rstrip s); [destruct (isspace c)|]; simpl in *; lia.
Qed.

Lemma rstrip_idempotent (s : string) : rstrip (rstrip s) = rstrip s.
Proof.
  induction s as [|c s IH]; simpl; [reflexivity|].
  destruct (rstrip s) as [|d r] eqn:E.
  - destruct (isspace c) eqn:Hc; simpl; [reflexivity | now rewrite Hc].
  - change (rstrip (String c (String d r)))
      with (match rstrip (String d r) with
            | EmptyString => if isspace c then EmptyString else String c EmptyString
            | String x y => String c (String x y)
            end).
    now rewrite IH.
Qed.

Lemma rstrip_starts_nonspace (s : string) :
  starts_nonspace s = true -> starts_nonspace (rstrip s) = true.
Proof.
  destruct s as [|c s]; [discriminate|]. simpl. intros H.
  destruct (rstrip s); [|exact H].
  apply negb_true_iff in H. rewrite H. simpl. now rewrite H.
Qed.

Lemma lstrip_starts (s : string) :
  lstrip s = EmptyString \/ starts_nonspace (lstrip s) = true.
Proof.
  induction s as [|c s IH]; simpl; [now left|].
  destruct (isspace c) eqn:Hc; [exact IH|]. right. simpl. now rewrite Hc.
Qed.

Lemma strip_starts (s : string) :
  strip s = EmptyString \/ starts_nonspace (strip s) = true.
Proof.
  unfold strip. destruct (lstrip_starts s) as [->|H]; [now left|].
  right. now apply rstrip_starts_nonspace.
Qed.

Lemma all_lstrip (q : ascii -> bool) (s : string) :
  all q s = true -> all q (lstrip s) = true.
Proof.
  induction s as [|c s IH]; simpl; [reflexivity|].
  intros H. destruct (isspace c); [|exact H].
  apply andb_true_iff in H as [_ H]. now apply IH.
Qed.

Lemma all_rstrip (q : ascii -> bool) (s : string) :
  all q s = true -> all q (rstrip s) = true.
Proof.
  induction s as [|c s IH]; simpl; [reflexivity|].
  intros H. apply andb_true_iff in H as [Hc Hs]. specialize (IH Hs).
  destruct (rstrip s); [destruct (isspace c)|]; simpl in *;
    try reflexivity; now rewrite Hc.
Qed.

Lemma lstrip_app_space (a w : string) :
  all isspace w = true ->
  lstrip (a ++ w) = EmptyString \/ lstrip (a ++ w) = (lstrip a ++ w)%string.
Proof.
  intros Hw. induction a as [|c a IH]; simpl.
  - left. clear - Hw. induction w as [|c w IH]; simpl in *; [reflexivity|].
    apply andb_true_iff in Hw as [Hc Hw]. rewrite Hc. now apply IH.
  - destruct (isspace c); [exact IH | now right].
Qed.

Lemma strip_line_clean (q : ascii -> bool) (body : string) :
  all q body = true ->
  all q (strip body) = true /\ all q (strip (body ++ String LF "")) = true.
Proof.
  intros H. unfold strip. split; [now apply all_rstrip, all_lstrip|].
  destruct (lstrip_app_space body (String LF "") eq_refl) as [-> | ->];
    [reflexivity|].
  rewrite rstrip_app_space by reflexivity.
  now apply all_rstrip, all_lstrip.
Qed.

Lemma line_shape_cons (c : ascii) (l : string) :
  line_break c = false -> line_shape l -> line_shape (String c l).
Proof.
  intros Hc (body & Hb & [-> | ->]); exists (String c body);
    (split; [simpl; now rewrite Hc | auto]).
Qed.

Lemma readlines_shape (n : nat) :
  forall s, String.length s <= n -> Forall line_shape (readlines s).
Proof.
  induction n as [|n IH]; intros [|c s] Hlen; simpl in Hlen;
    try (constructor; fail); [lia|].
  assert (Hs : Forall line_shape (readlines s)) by (apply IH; lia).
  assert (Hlf : line_shape (String LF ""))
    by (exists EmptyString; split; [reflexivity | now right]).
  cbn [readlines].
  destruct (is_char LF c) eqn:E1; [now constructor|].
  destruct (is_char CR c) eqn:E2.
  - constructor; [exact Hlf|].
    destruct s as [|c' s']; [constructor|].
    destruct (is_char LF c'); [apply IH; simpl in Hlen; lia | exact Hs].
  - assert (Hc : line_break c = false) by (unfold line_break; now rewrite E1, E2).
    destruct (readlines s) as [|l ls].
    + constructor; [|constructor]. exists (String c "").
      split; [simpl; now rewrite Hc | now left].
    + inversion Hs; subst. constructor; [now apply line_shape_cons | assumption].
Qed.

Lemma fields_one (p : ascii -> bool) (s b : string) : fields p s = [b] -> s = b.
Proof.
  revert b. induction s as [|c s IH]; intros b; simpl.
  - now intros [= <-].
  - destruct (p c).
    + intros [= <- H]. now apply fields_nonempty in H.
    + destruct (fields p s) as [|f fs] eqn:E; [now apply fields_nonempty in E|].
      intros [= <- ->]. now rewrite (IH f eq_refl).
Qed.

Lemma fields_two (p : ascii -> bool) (s a b : string) :
  fields p s = [a; b] ->
  exists c, p c = true /\ s = (a ++ String c b)%string.
Proof.
  revert a. induction s as [|c s IH]; intros a; simpl; [discriminate|].
  destruct (p c) eqn:Hc.
  - intros [= <- H]. exists c. split; [exact Hc|].
    now rewrite (fields_one _ _ _ H).
  - destruct (fields p s) as [|f fs] eqn:E; [discriminate|].
    intros [= <- ->]. destruct (IH f eq_refl) as (c' & Hc' & ->).
    now exists c'.
Qed.

Lemma split_none (s : string) : split s = [] -> all isspace s = true.
Proof.
  unfold split. induction s as [|c s IH]; simpl; [reflexivity|].
  destruct (isspace c); simpl; [exact IH|].
  now destruct (fields isspace s).
Qed.

Lemma parse_line_entry (line label : string) (uris : list string) :
  line_shape line -> parse_line line = Ok (label, uris) ->
  entry_ok (label, uris) = true.
Proof.
  intros Hshape Hp. pose proof (parse_line_one_tab line) as H.
  destruct (one_tab line); [|congruence].
  destruct H as (label' & field & Hf & Hp'). rewrite Hp in Hp'.
  injection Hp' as -> ->.
  destruct (fields_two _ _ _ _ Hf) as (c & Hc & Hs).
  apply is_char_true in Hc. subst c.
  assert (Hclean : all (fun c => negb (line_break c)) (strip line) = true).
  { destruct Hshape as (body & Hb & [-> | ->]);
      now apply (strip_line_clean _ body Hb). }
  pose proof (fields_pieces (is_char TAB) (strip line)) as Hpieces.
  rewrite Hf in Hpieces. inversion Hpieces as [|? ? Hl _]; subst.
  assert (Hstart : starts_nonspace label' = true).
  { destruct (strip_starts line) as [E|E]; rewrite Hs in E.
    - now destruct label'.
    - destruct label' as [|x label']; [discriminate E | exact E]. }
  unfold entry_ok, key_ok. cbn [fst snd]. rewrite Hstart. cbn [andb].
  apply andb_true_iff. split; [apply andb_true_iff; split|].
  - rewrite Hs, all_app in Hclean. apply andb_true_iff in Hclean as [Hk _].
    clear - Hk Hl. induction label' as [|x l IH]; simpl in *; [reflexivity|].
    apply andb_true_iff in Hk as [Hx Hk]. apply andb_true_iff in Hl as [Hx' Hl].
    apply negb_true_iff in Hx, Hx'. rewrite Hx, Hx'. simpl. now apply IH.
  - destruct (split field) as [|u us] eqn:E; [|reflexivity]. exfalso.
    apply split_none in E.
    assert (Hfix : rstrip (strip line) = strip line)
      by (unfold strip; apply rstrip_idempotent).
    rewrite Hs in Hfix.
    change (label' ++ String TAB field)%string
      with (label' ++ (String TAB "" ++ field))%string in Hfix.
    rewrite <- append_assoc, rstrip_app_space in Hfix by exact E.
    rewrite rstrip_app_space in Hfix by reflexivity.
    pose proof (rstrip_length label') as Hlen. rewrite Hfix in Hlen.
    rewrite !append_length in Hlen. simpl in Hlen. lia.
  - apply forallb_forall. intros u Hu.
    pose proof (split_tokens field) as Ht. rewrite Forall_forall in Ht.
    now apply Ht.
Qed.

Lemma load_lines_entries (lines : list string) :
  forall index loaded,
    Forall line_shape lines ->
    NoDup (keys index) -> Forall (fun e => entry_ok e = true) index ->
    load_lines lines index = Ok loaded ->
    NoDup (keys loaded) /\ Forall (fun e => entry_ok e = true) loaded.
Proof.
  induction lines as [|line rest IH]; intros index loaded Hs Hnd Hall H.
  - injection H as <-. now split.
  - inversion Hs as [|? ? Hline Hrest]; subst. cbn [load_lines] in H.
    destruct (parse_line line) as [[label uris]|e] eqn:E; [|discriminate].
    cbn [bind] in H. apply (IH _ _ Hrest) in H; [exact H | |].
    + now apply dict_set_keys.
    + apply dict_set_Forall; [exact Hall|].
      exact (parse_line_entry _ _ _ Hline E).
Qed.

(** X14: an index [_load_index] returns has distinct keys that are not
    empty, do not begin with whitespace and hold no tab and no line break,
    each with a non-empty list of non-empty URIs without whitespace; saved
    and loaded again it is the same index. *)
Theorem load_index_entries (file : string) (index : dict (list string)) :
  _load_index file = Ok index ->
  NoDup (keys index)
  /\ forallb entry_ok index = true
  /\ _load_index (_save_index index) = Ok index.
Proof.
  unfold _load_index at 1. intros H.
  destruct (load_lines_entries (readlines file) [] index
              (readlines_shape _ file (Nat.le_refl _))
              (NoDup_nil string) (Forall_nil _) H) as [Hnd Hall].
  assert (Hok : forallb entry_ok index = true).
  { apply forallb_forall. rewrite Forall_forall in Hall. exact Hall. }
  split; [exact Hnd|]. split; [exact Hok|]. now apply load_save_exact.
Qed.

Lemma load_index_entries_witness :
  NoDup (keys [("a b", ["u"; "v"])])
  /\ forallb entry_ok [("a b", ["u"; "v"])] = true
  /\ _load_index (_save_index [("a b", ["u"; "v"])]) = Ok [("a b", ["u"; "v"])].
Proof.
  exact (load_index_entries padded_file [("a b", ["u"; "v"])] eq_refl).
Defined.

(** ** The index of an instance *)

(** X15: an instance without index and without index file builds the
    index from the graph and writes it; when the URIs of the concepts are
    not empty and hold no whitespace, an instance started later on that
    file reads from it an index with the same keys and, under each key,
    the same URIs, and leaves the file as it is, whatever the graph, the
    analyzer and the parameters are by then. *)
Theorem initialize_index_persists (normalize_word : string -> string)
    (g : Graph) (p : params) (self1 : backend) :
  (forall c, In c (subjects g RDF_type (URIRef SKOS_Concept)) ->
             is_token c = true) ->
  _initialize_index normalize_word g p {| _index := None; index_file := None |}
  = Ok self1 ->
  exists index,
    _create_index normalize_word g p = Ok index
    /\ _index self1 = Some index
    /\ index_file self1 = Some (_save_index index)
    /\ forall normalize_word' g' p',
         exists loaded,
           _initialize_index normalize_word' g' p'
             {| _index := None; index_file := index_file self1 |}
           = Ok {| _index := Some loaded; index_file := index_file self1 |}
           /\ same_mapping loaded index.
Proof.
  intros Huris H. unfold _initialize_index in H. cbn [_index index_file] in H.
  destruct (_create_index normalize_word g p) as [index|e] eqn:E; [|discriminate].
  cbn [bind] in H. injection H as <-. exists index.
  split; [reflexivity|]. split; [reflexivity|]. split; [reflexivity|].
  intros nw' g' p'. exists index. unfold _initialize_index.
  cbn [_index index_file].
  rewrite (create_index_round_trip _ _ _ _ Huris E). cbn [bind].
  split; [reflexivity | apply same_mapping_refl].
Qed.

Lemma initialize_index_persists_witness :
  exists index,
    _create_index (fun w => w) example_graph example_params = Ok index
    /\ Some example_index = Some index
    /\ Some (_save_index example_index) = Some (_save_index index)
    /\ forall normalize_word' g' p',
         exists loaded,
           _initialize_index normalize_word' g' p'
             {| _index := None;
                index_file := Some (_save_index example_index) |}
           = Ok {| _index := Some loaded;
                   index_file := Some (_save_index example_index) |}
           /\ same_mapping loaded example_index.
Proof.
  destruct (initialize_index_persists (fun w => w) example_graph example_params
              {| _index := Some example_index;
                 index_file := Some (_save_index example_index) |})
    as (index & Hc & Hi & Hf & Hl).
  - intros c [<-|[<-|[<-|[]]]]; reflexivity.
  - reflexivity.
  - cbn [_index index_file] in Hi, Hf, Hl. injection Hi as <-.
    exists example_index.
    split; [exact Hc|]. split; [reflexivity|]. split; [reflexivity|].
    exact Hl.
Defined.

(** X16: an instance whose index is set is left as it is. An instance
    without index that finds an index file reads the index from the file
    and from nothing else: the file stays as it is, and a file with a line
    that has not exactly one tab makes the initialisation raise
    [ValueError], the index is not built from the graph instead. *)
Theorem initialize_index_file_first (normalize_word : string -> string)
    (g : Graph) (p : params) (self : backend) :
  (forall index, _index self = Some index ->
     _initialize_index normalize_word g p self = Ok self)
  /\ (forall text index,
        _index self = None -> index_file self = Some text ->
        _load_index text = Ok index ->
        _initialize_index normalize_word g p self
        = Ok {| _index := Some index; index_file := Some text |})
  /\ (forall text,
        _index self = None -> index_file self = Some text ->
        forallb one_tab (readlines text) = false ->
        _initialize_index normalize_word g p self = Raise ValueError).
Proof.
  unfold _initialize_index. split; [|split].
  - intros index H. now rewrite H.
  - intros text index Hi Hf Hl. now rewrite Hi, Hf, Hl.
  - intros text Hi Hf Hbad. rewrite Hi, Hf.
    pose proof (load_lines_one_tab (readlines text) []) as H.
    rewrite Hbad in H. unfold _load_index. now rewrite H.
Qed.

Lemma initialize_index_file_first_witness :
  _initialize_index (fun w => w) example_graph example_params
    {| _index := None; index_file := Some padded_file |}
  = Ok {| _index := Some [("a b", ["u"; "v"])];
          index_file := Some padded_file |}
  /\ _initialize_index (fun w => w) example_graph example_params
       {| _index := None; index_file := Some "no tab here" |}
     = Raise ValueError.
Proof.
  split.
  - exact (proj1 (proj2 (initialize_index_file_first (fun w => w)
             example_graph example_params
             {| _index := None; index_file := Some padded_file |}))
             padded_file [("a b", ["u"; "v"])] eq_refl eq_refl eq_refl).
  - exact (proj2 (proj2 (initialize_index_file_first (fun w => w)
             example_graph example_params
             {| _index := None; index_file := Some "no tab here" |}))
             "no tab here" eq_refl eq_refl eq_refl).
Defined.

(** ** Where suggestions come from *)

Lemma scored_uris (uris : list string) (raw : Q) :
  forall l, scored uris raw = Ok l -> map fst l = uris.
Proof.
  induction uris as [|u rest IH]; intros l H.
  - now injection H as <-.
  - cbn [scored] in H.
    destruct (_transform_score raw) as [s|e]; [|discriminate]. cbn [bind] in H.
    destruct (scored rest raw) as [more|e]; [|discriminate]. cbn [bind] in H.
    injection H as <-. simpl. now rewrite (IH more eq_refl).
Qed.

Lemma match_keyphrases_uris (normalize_word : string -> string)
    (index : dict (list string)) (keyphrases : list (string * Q)) :
  forall fed not_matched,
    match_keyphrases normalize_word index keyphrases = Ok (fed, not_matched) ->
    map fst fed
    = flat_map (fun kr => _keyphrase2uris normalize_word index (fst kr))
               keyphrases.
Proof.
  induction keyphrases as [|[kp raw] rest IH]; intros fed nm H.
  - now injection H as <- <-.
  - cbn [match_keyphrases] in H.
    destruct (scored (_keyphrase2uris normalize_word index kp) raw)
      as [here|e] eqn:Eh; [|discriminate].
    cbn [bind] in H.
    destruct (match _keyphrase2uris normalize_word index kp with
              | [] => s <- _transform_score raw ;; Ok [(kp, s)]
              | _ :: _ => Ok []
              end) as [missed|e]; [|discriminate].
    cbn [bind] in H.
    destruct (match_keyphrases normalize_word index rest)
      as [[fed' nm']|e]; [|discriminate].
    cbn [bind] in H. injection H as <- <-.
    rewrite map_app, (scored_uris _ _ _ Eh), (IH fed' nm' eq_refl).
    reflexivity.
Qed.

(** X17: the URIs [_keyphrases2suggestions] returns are the URIs the index
    keeps under the key of one of the keyphrases, each once; keyphrases
    without an entry in the index add nothing, and when no keyphrase has an
    entry the result is the empty list. *)
Theorem keyphrases2suggestions_uris (normalize_word : string -> string)
    (index : dict (list string)) (keyphrases out : list (string * Q)) :
  _keyphrases2suggestions normalize_word index keyphrases = Ok out ->
  NoDup (keys out)
  /\ (forall u, In u (keys out)
                <-> exists kp raw,
                      In (kp, raw) keyphrases
                      /\ In u (_keyphrase2uris normalize_word index kp))
  /\ ((forall kp raw, In (kp, raw) keyphrases ->
         dict_get index (keyphrase_key normalize_word kp) = None) ->
      out = []).
Proof.
  unfold _keyphrases2suggestions. intros H.
  destruct (match_keyphrases normalize_word index keyphrases)
    as [[fed nm]|e] eqn:E; [|discriminate].
  cbn [bind] in H. unfold _combine_suggestions in H.
  pose proof (combine_loop_keys _ _ _ H) as Hk.
  rewrite (match_keyphrases_uris _ _ _ _ _ E) in Hk. simpl in Hk.
  assert (Hin : forall u, In u (keys out)
                <-> exists kp raw,
                      In (kp, raw) keyphrases
                      /\ In u (_keyphrase2uris normalize_word index kp)).
  { intros u. rewrite Hk, fold_set_add_In, in_flat_map. simpl. split.
    - intros [[]|([kp raw] & Hin & Hu)]. now exists kp, raw.
    - intros (kp & raw & Hin & Hu). right. now exists (kp, raw). }
  split; [rewrite Hk; apply fold_set_add_NoDup; constructor|].
  split; [exact Hin|].
  intros Hnone. destruct out as [|[u s] out]; [reflexivity|]. exfalso.
  destruct (proj1 (Hin u) (or_introl eq_refl)) as (kp & raw & Hkp & Hu).
  unfold _keyphrase2uris in Hu. now rewrite (Hnone _ _ Hkp) in Hu.
Qed.

Lemma keyphrases2suggestions_uris_witness :
  NoDup (keys [("http://example.org/c1", (1 # 1)%Q);
               ("http://example.org/c3", (1 # 1)%Q)])
  /\ (forall u, In u (keys [("http://example.org/c1", (1 # 1)%Q);
                            ("http://example.org/c3", (1 # 1)%Q)])
                <-> exists kp raw,
                      In (kp, raw) [("rock art", 0%Q); ("ships", (1 # 2)%Q)]
                      /\ In u (_keyphrase2uris (fun w => w) example_index kp))
  /\ ((forall kp raw, In (kp, raw) [("rock art", 0%Q); ("ships", (1 # 2)%Q)] ->
         dict_get example_index (keyphrase_key (fun w => w) kp) = None) ->
      [("http://example.org/c1", (1 # 1)%Q);
       ("http://example.org/c3", (1 # 1)%Q)] = []).
Proof.
  exact (keyphrases2suggestions_uris (fun w => w) example_index
           [("rock art", 0%Q); ("ships", (1 # 2)%Q)]
           [("http://example.org/c1", (1 # 1)%Q);
            ("http://example.org/c3", (1 # 1)%Q)] eq_refl).
Defined.

(** ** Label kinds without a [label_types] parameter *)

(** X19: without a [label_types] parameter the kinds are those of the
    entries of [default_label_types], taken as they are (not stripped); an
    entry that is not a key of the mapping raises [KeyError], which is not
    turned into [ConfigurationException]. *)
Theorem label_types_default (p : params) :
  label_types_param p = None ->
  (forallb known (default_label_types p) = true ->
   exists kinds, label_types p = Ok kinds
                 /\ map (dict_get mapping) (default_label_types p)
                    = map Some kinds)
  /\ (forallb known (default_label_types p) = false ->
      exists entry, In entry (default_label_types p) /\ known entry = false
                    /\ label_types p = Raise (KeyError entry)).
Proof.
  intros Hp. unfold label_types. rewrite Hp. split; intros H.
  - rewrite <- (map_id (default_label_types p)) in H.
    destruct (lookup_kinds_known _ _ H) as (kinds & Hk & Hm).
    exists kinds. rewrite map_id in Hm. now split.
  - rewrite <- (map_id (default_label_types p)) in H.
    destruct (lookup_kinds_unknown _ _ H) as (entry & Hin & Hun & Hr).
    exists entry. rewrite map_id in Hin. now repeat split.
Qed.

Lemma label_types_default_witness :
  (exists kinds, label_types strip_params = Ok kinds
                 /\ map (dict_get mapping) (default_label_types strip_params)
                    = map Some kinds)
  /\ (exists entry, In entry (default_label_types bad_default_params)
                    /\ known entry = false
                    /\ label_types bad_default_params = Raise (KeyError entry)).
Proof.
  split.
  - exact (proj1 (label_types_default strip_params eq_refl) eq_refl).
  - exact (proj2 (label_types_default bad_default_params eq_refl) eq_refl).
Defined.

(** ** Labels that are not literals *)

Lemma keep_language_outcome (lang : string) (labels : list node) :
  keep_language lang labels
  = if forallb is_literal labels
    then Ok (filter (in_language lang) labels)
    else Raise AttributeError.
Proof.
  induction labels as [|l rest IH]; [reflexivity|].
  destruct l as [|lexical llang datatype]; [reflexivity|].
  cbn [keep_language forallb is_literal andb filter in_language].
  rewrite IH. now destruct (forallb is_literal rest).
Qed.

(** [_get_concept_labels] returns, kind by kind in the order of the
    kinds, the literals of the configured language the graph attaches to
    the concept; it raises [AttributeError] when the graph attaches to the
    concept, by one of the kinds, an object that is not a literal. *)
Lemma get_concept_labels_outcome (g : Graph) (p : params) (concept : string)
    (lts : list string) :
  _get_concept_labels g p concept lts
  = if forallb (fun kind => forallb is_literal (objects g concept kind)) lts
    then Ok (flat_map (fun kind => filter (in_language (language p))
                                          (objects g concept kind)) lts)
    else Raise AttributeError.
Proof.
  induction lts as [|kind rest IH]; [reflexivity|].
  cbn [_get_concept_labels forallb flat_map].
  rewrite keep_language_outcome, IH.
  destruct (forallb is_literal (objects g concept kind)); [|reflexivity].
  cbn [bind andb]. now destruct (forallb _ rest).
Qed.

Lemma index_concepts_outcome (normalize_word : string -> string) (g : Graph)
    (p : params) (lts : list string) (concepts : list string) :
  label_types p = Ok lts ->
  forall index,
    if forallb (fun c => forallb (fun kind =>
                            forallb is_literal (objects g c kind)) lts)
               (filter (fun c => negb (deprecated g c)) concepts)
    then exists built,
           index_concepts normalize_word g p concepts index = Ok built
    else index_concepts normalize_word g p concepts index
         = Raise AttributeError.
Proof.
  intros Hlt. induction concepts as [|c rest IH]; intros index; [now eexists|].
  cbn [index_concepts filter]. fold (deprecated g c).
  destruct (deprecated g c); cbn [negb]; [apply IH|].
  cbn [forallb]. rewrite Hlt. cbn [bind]. rewrite get_concept_labels_outcome.
  destruct (forallb _ lts); cbn [andb bind]; [apply IH | reflexivity].
Qed.

(** X20: with valid label kinds the index builder returns an index when
    every object the graph attaches, by one of the kinds, to a concept
    without the deprecation mark is a literal, and raises [AttributeError]
    when one of them is not; what is attached to deprecated concepts does
    not matter. *)
Theorem create_index_outcome (normalize_word : string -> string) (g : Graph)
    (p : params) (lts : list string) :
  label_types p = Ok lts ->
  if labels_are_literals g lts
  then exists index, _create_index normalize_word g p = Ok index
  else _create_index normalize_word g p = Raise AttributeError.
Proof.
  intros Hlt. unfold labels_are_literals, live_concepts, _create_index.
  pose proof (index_concepts_outcome normalize_word g p lts
                (subjects g RDF_type (URIRef SKOS_Concept)) Hlt []) as H.
  destruct (forallb _ (filter _ _)).
  - destruct H as (built & ->). now eexists.
  - now rewrite H.
Qed.

Lemma create_index_outcome_witness :
  (exists index, _create_index (fun w => w) example_graph strip_params = Ok index)
  /\ _create_index (fun w => w) resource_label_graph strip_params
     = Raise AttributeError.
Proof.
  split.
  - exact (create_index_outcome (fun w => w) example_graph strip_params
             [SKOS_prefLabel; SKOS_altLabel] eq_refl).
  - exact (create_index_outcome (fun w => w) resource_label_graph strip_params
             [SKOS_prefLabel; SKOS_altLabel] eq_refl).
Defined.

